(** * Personalization and resource-delivery core: feed ranking, prefetch cache,
      narration key pool.

    Shallow embedding of [SmartLogic.ts] (generateVideoFeed), [smartCache.ts]
    (bufferVideoChunk) and [elevenLabsManager.ts] (checkKeyUsage,
    optimizeKeyOrder, getActiveKeyData, switchToNextKey, playNarrative),
    followed by the properties the specification states about them.

    Modelling conventions.
    - JavaScript numbers that carry random draws and watch progress are
      rationals ([Q]); character counts and the rotation index are integers
      ([Z]).  A score is a double: every product, sum and difference of the
      scoring code is followed by [Js.toDouble], the rounding to the nearest
      number with 53 significant bits (ties to even, subnormal numbers
      included).  Scores stay below 100, so the overflow to [Infinity] is left
      out.
    - [Math.random] is an injected source: a stream of draws, consumed in call
      order.
    - [Array.prototype.sort] is a stable insertion sort that calls the
      comparator through the threaded state (the comparator of the shuffles
      draws from the random source).
    - Network, cache-storage and document-store calls take their outcome from
      an environment indexed by the number of calls made so far; a rejected
      promise or a thrown error is an explicit [Throw] result. *)

From Stdlib Require Import QArith Qround Qpower Lqa Sorted Permutation.
From stdpp Require Import gmap strings list.
From Equations Require Import Equations.

Local Open Scope string_scope.
Local Open Scope list_scope.

(** ** Array helpers shared by the three engines *)

Module Js.

Section Sort.
Context {A S : Type}.

  (** The comparator receives the element already placed, the element being
      placed and the threaded state (a comparator may draw random numbers). *)
Variable comparefn : A → A → S → Q * S.

  (** [placed] is the ordered prefix of the array, last position first.  The
      new element moves towards the front while the comparator answers a
      positive number for (neighbour, element). *)
Fixpoint sift (x : A) (placed : list A) (s : S) : list A * S :=
    match placed with
    | [] => ([x], s)
    | y :: below =>
        let '(c, s1) := comparefn y x s in
        if Qle_bool c 0 then (x :: y :: below, s1)
        else let '(r, s2) := sift x below s1 in (y :: r, s2)
    end.

Fixpoint sort_from (placed todo : list A) (s : S) : list A * S :=
    match todo with
    | [] => (rev placed, s)
    | x :: rest => let '(placed', s1) := sift x placed s in sort_from placed' rest s1
    end.

Definition sort (l : list A) (s : S) : list A * S := sort_from [] l s.
End Sort.

(** [Array.prototype.map] with a callback that uses the threaded state. *)
Fixpoint map_st {A B S : Type} (f : A → S → B * S) (l : list A) (s : S) : list B * S :=
  match l with
  | [] => ([], s)
  | x :: rest =>
      let '(y, s1) := f x s in
      let '(ys, s2) := map_st f rest s1 in
      (y :: ys, s2)
  end.

(** The random source: the stream of the draws [Math.random] will return. *)
Definition Random : Type := nat → Q.

Definition Math_random (rng : Random) : Q * Random :=
  (rng 0, λ n, rng (Datatypes.S n)).

(** The comparator of the shuffles: [() => 0.5 - Math.random()]. *)
Definition coin {A : Type} (_ _ : A) (rng : Random) : Q * Random :=
  let '(r, rng1) := Math_random rng in ((5 # 10) - r, rng1)%Q.

Definition shuffle {A : Type} (l : list A) (rng : Random) : list A * Random :=
  sort coin l rng.

(** Number arithmetic.  The result of [*], [+] and [-] on two numbers is the
    exact result rounded to a double. *)

(** Round to the nearest integer, a tie going to the even one. *)
Definition roundTiesToEven (q : Q) : Z :=
  let f := Qfloor q in
  match (q - inject_Z f ?= 1 # 2)%Q with
  | Lt => f
  | Gt => (f + 1)%Z
  | Eq => if Z.even f then f else (f + 1)%Z
  end.

(** The binary order of magnitude of a positive number: the [k] with
    [2^k <= a < 2^(k+1)]. *)
Definition magnitude (a : Q) : Z :=
  let g := (Z.log2 (Qnum a) - Z.log2 (Z.pos (Qden a)))%Z in
  if Qle_bool (2 ^ g) a then g else (g - 1)%Z.

(** The exponent of the last place of the double nearest to [a]: 53
    significant bits, and no exponent below that of the subnormal numbers. *)
Definition exponent (a : Q) : Z := Z.max (magnitude a - 52) (-1074).

(** The double nearest to a positive number: a whole number of units in the
    last place. *)
Definition roundPositive (a : Q) : Q :=
  let e := exponent a in
  (inject_Z (roundTiesToEven (a * 2 ^ (- e))) * 2 ^ e)%Q.

(** The double nearest to [x], in lowest terms. *)
Definition toDouble (x : Q) : Q :=
  match Qnum x with
  | Z0 => 0
  | Z.pos _ => Qred (roundPositive x)
  | Z.neg _ => Qred (- roundPositive (- x))
  end%Q.

(** A [Set] keeps its members in insertion order; adding a member it already
    has changes nothing.  [setAdd seen l] adds the items of [l] one by one. *)
Fixpoint setAdd {A : Type} `{EqDecision A} (seen l : list A) : list A :=
  match l with
  | [] => seen
  | x :: rest =>
      if bool_decide (x ∈ seen) then setAdd seen rest else setAdd (seen ++ [x]) rest
  end.

(** [Array.from(new Set(l))] *)
Definition uniq {A : Type} `{EqDecision A} (l : list A) : list A := setAdd [] l.

End Js.

(** ** Asynchronous calls: a state monad with thrown errors *)

Module Async.

Inductive Completion (A : Type) : Type :=
| Normal (a : A)
| Throw (reason : string).
Arguments Normal {A} a.
Arguments Throw {A} reason.

(** A computation over the world [W]: it ends normally with a value or
    abruptly with a thrown error (a rejected promise under [await]). *)
Definition M (W A : Type) : Type := W → Completion A * W.

Section Ops.
Context {W : Type}.

Definition ret {A} (a : A) : M W A := λ w, (Normal a, w).

Definition bind {A B} (m : M W A) (k : A → M W B) : M W B :=
    λ w, match m w with
         | (Normal a, w1) => k a w1
         | (Throw e, w1) => (Throw e, w1)
         end.

Definition throw {A} (e : string) : M W A := λ w, (Throw e, w).

  (** [try { body } catch (e) { handler }] *)
Definition try_catch {A} (body : M W A) (handler : string → M W A) : M W A :=
    λ w, match body w with
         | (Normal a, w1) => (Normal a, w1)
         | (Throw e, w1) => handler e w1
         end.

Definition get : M W W := λ w, (Normal w, w).

Definition modify (f : W → W) : M W unit := λ w, (Normal tt, f w).
End Ops.

#[export] Instance M_ret {W} : MRet (M W) := λ A, ret.
#[export] Instance M_bind {W} : MBind (M W) := λ A B k m, bind m k.

End Async.

Import Async.

(** ** SmartLogic.ts: the feed ranking engine *)

Module SmartLogic.

Record Video := {
  id : string;
  title : string;
  category : string;
  is_trending : bool;
  video_url : string;
  poster_url : option string
}.

Record WatchEntry := { hid : string; progress : Q }.

Record UserInteractions := {
  likedIds : list string;
  dislikedIds : list string;
  savedIds : list string;
  savedCategoryNames : list string;
  watchHistory : list WatchEntry;
  downloadedIds : list string
}.

Record Scored := { video : Video; score : Q }.

(** [h.progress > 0.80] *)
Definition over80 (h : WatchEntry) : bool := negb (Qle_bool (progress h) (8 # 10)).

Definition watchedIdsOf (interactions : UserInteractions) : gset string :=
  list_to_set (map hid (List.filter over80 (watchHistory interactions))).

Definition dislikedIdsOf (interactions : UserInteractions) : gset string :=
  list_to_set (dislikedIds interactions).

Definition unwatchedPoolOf (allVideos : list Video) (interactions : UserInteractions) : list Video :=
  List.filter (λ v, negb (bool_decide (id v ∈ watchedIdsOf interactions))
                    && negb (bool_decide (id v ∈ dislikedIdsOf interactions))) allVideos.

Definition watchedPoolOf (allVideos : list Video) (interactions : UserInteractions) : list Video :=
  List.filter (λ v, bool_decide (id v ∈ watchedIdsOf interactions)
                    && negb (bool_decide (id v ∈ dislikedIdsOf interactions))) allVideos.

(** The body of the callback of [unwatchedPool.map], [r] being what
    [Math.random()] returned. *)
Definition scoreAt (localInterests : list string) (r : Q) (v : Video) : Q :=
  let score := Js.toDouble (r * 10) in
  let score := if bool_decide (category v ∈ localInterests)
               then Js.toDouble (score + 50) else score in
  let score := if is_trending v then Js.toDouble (score + 20) else score in
  score.

(** The callback of [unwatchedPool.map]. *)
Definition scoreVideo (localInterests : list string) (v : Video) (rng : Js.Random)
  : Scored * Js.Random :=
  let '(r, rng1) := Js.Math_random rng in
  ({| video := v; score := scoreAt localInterests r v |}, rng1).

(** The part of a score that does not depend on the random draw. *)
Definition boost (localInterests : list string) (v : Video) : Q :=
  ((if bool_decide (category v ∈ localInterests) then 50 else 0)
   + (if is_trending v then 20 else 0))%Q.

(** [(a, b) => b.score - a.score] *)
Definition byScoreDesc (a b : Scored) (rng : Js.Random) : Q * Js.Random :=
  (Js.toDouble (score b - score a), rng).

(** The closing filter with its mutable [seenIds] set. *)
Fixpoint dedupe (seenIds : gset string) (feed : list Video) : list Video :=
  match feed with
  | [] => []
  | v :: rest =>
      if bool_decide (id v ∈ seenIds) then dedupe seenIds rest
      else v :: dedupe ({[ id v ]} ∪ seenIds) rest
  end.

Definition generateVideoFeed (localInterests : list string)
    (allVideos : list Video) (interactions : UserInteractions) (rng : Js.Random)
  : list Video :=
  if (length allVideos =? 0)%nat then [] else
  let unwatchedPool := unwatchedPoolOf allVideos interactions in
  let watchedPool := watchedPoolOf allVideos interactions in
  let '(finalFeed, rng1) :=
    if (0 <? length unwatchedPool)%nat then
      let '(scored, rng1) := Js.map_st (scoreVideo localInterests) unwatchedPool rng in
      let '(scored', rng2) := Js.sort byScoreDesc scored rng1 in
      (map video scored', rng2)
    else Js.shuffle watchedPool rng in
  let '(finalFeed, rng2) :=
    if (length finalFeed =? 0)%nat && (0 <? length allVideos)%nat
    then Js.shuffle allVideos rng1
    else (finalFeed, rng1) in
  dedupe ∅ finalFeed.

(** The order the score comparator stands for. *)
Definition descending (a b : Scored) : Prop := (score b <= score a)%Q.

(** A score is a double: the result of a rounding. *)
Definition rounded (s : Scored) : Prop := ∃ x, score s = Js.toDouble x.

(** The three ways the feed is put together before the closing filter. *)
Inductive Assembled li (C : list Video) I rng : list Video → Prop :=
| standard_mode ranked :
    unwatchedPoolOf C I ≠ [] →
    ranked = (Js.sort byScoreDesc (Js.map_st (scoreVideo li) (unwatchedPoolOf C I) rng).1
                (Js.map_st (scoreVideo li) (unwatchedPoolOf C I) rng).2).1 →
    Assembled li C I rng (map video ranked)
| recycle_mode F :
    unwatchedPoolOf C I = [] → watchedPoolOf C I ≠ [] →
    F ≡ₚ watchedPoolOf C I →
    Assembled li C I rng F
| safety_net F :
    unwatchedPoolOf C I = [] → watchedPoolOf C I = [] →
    F ≡ₚ C →
    Assembled li C I rng F.

End SmartLogic.

(** ** smartCache.ts: the chunked prefetch cache *)

Module SmartCache.

(** [1.5 * 1024 * 1024] *)
Definition BUFFER_SIZE : Z := 1572864.

Definition Blob : Type := list Byte.byte.

(** What [fetch] resolves to: the status line, the Content-Type header when
    present, and the body ([None] when reading it fails). *)
Record Response := {
  status : Z;
  contentType : option string;
  blob : option Blob
}.

Definition ok (r : Response) : bool := (200 <=? status r)%Z && (status r <=? 299)%Z.

(** The response object written to the bucket. *)
Record CacheEntry := {
  entryStatus : Z;
  entryStatusText : string;
  entryContentType : string;
  entryContentLength : nat;
  entrySmartBuffer : string;
  entryBody : Blob
}.

(** The outside world of one run: the n-th call of each kind gets the n-th
    answer.  [fetch] also sees the URL and the requested range end. *)
Record Env := {
  cachesOpen : nat → bool;
  fetch : nat → string → Z → Completion Response;
  cachePut : nat → bool
}.

(** The bucket [rooh-video-buffer-v4] and the number of calls made so far. *)
Record World := {
  videoBuffer : gmap string CacheEntry;
  opens : nat;
  fetches : nat;
  puts : nat
}.

Definition caches_open (env : Env) : M World unit :=
  λ w, let w1 := {| videoBuffer := videoBuffer w; opens := S (opens w);
                    fetches := fetches w; puts := puts w |} in
       if cachesOpen env (opens w) then (Normal tt, w1)
       else (Throw "caches.open", w1).

Definition cache_match (url : string) : M World (option CacheEntry) :=
  λ w, (Normal (videoBuffer w !! url), w).

Definition fetch_range (env : Env) (url : string) : M World Response :=
  λ w, (fetch env (fetches w) url BUFFER_SIZE,
        {| videoBuffer := videoBuffer w; opens := opens w;
           fetches := S (fetches w); puts := puts w |}).

Definition response_blob (r : Response) : M World Blob :=
  match blob r with
  | Some b => mret b
  | None => throw "response.blob"
  end.

Definition cache_put (env : Env) (url : string) (e : CacheEntry) : M World unit :=
  λ w, if cachePut env (puts w)
       then (Normal tt, {| videoBuffer := <[url := e]> (videoBuffer w); opens := opens w;
                           fetches := fetches w; puts := S (puts w) |})
       else (Throw "cache.put", {| videoBuffer := videoBuffer w; opens := opens w;
                                   fetches := fetches w; puts := S (puts w) |}).

(** [header || fallback]: an absent header and an empty one both fall back. *)
Definition orElse (header : option string) (fallback : string) : string :=
  match header with
  | Some value => if String.eqb value "" then fallback else value
  | None => fallback
  end.

Definition bufferVideoChunk (env : Env) (url : string) : M World unit :=
  if String.eqb url "" || negb (String.prefix "http" url) then mret tt else
  try_catch
    (caches_open env ;;
     cachedResponse ← cache_match url ;
     match cachedResponse with
     | Some _ => mret tt
     | None =>
         response ← fetch_range env url ;
         if ok response || (status response =? 206)%Z then
           b ← response_blob response ;
           cache_put env url
             {| entryStatus := 200;
                entryStatusText := "OK";
                entryContentType := orElse (contentType response) "video/mp4";
                entryContentLength := length b;
                entrySmartBuffer := "true";
                entryBody := b |}
         else mret tt
     end)
    (λ _, mret tt).

(** A blob URL, identified with the bytes it serves. *)
Definition ObjectUrl : Type := Blob.

Definition getVideoSrcFromCache (env : Env) (url : string) : M World (option ObjectUrl) :=
  if String.eqb url "" then mret None else
  try_catch
    (caches_open env ;;
     response ← cache_match url ;
     match response with
     | Some e => mret (Some (entryBody e))
     | None => mret None
     end)
    (λ _, mret None).

(** The bucket [rooh-image-cache-v1] with its own call counts; it holds the
    responses as they were fetched. *)
Record ImageEnv := {
  imageCachesOpen : nat → bool;
  imageFetch : nat → string → Completion Response;
  imageCachePut : nat → bool
}.

Record ImageWorld := {
  imageCache : gmap string Response;
  imageOpens : nat;
  imageFetches : nat;
  imagePuts : nat
}.

Definition image_caches_open (env : ImageEnv) : M ImageWorld unit :=
  λ w, let w1 := {| imageCache := imageCache w; imageOpens := S (imageOpens w);
                    imageFetches := imageFetches w; imagePuts := imagePuts w |} in
       if imageCachesOpen env (imageOpens w) then (Normal tt, w1)
       else (Throw "caches.open", w1).

Definition image_fetch (env : ImageEnv) (url : string) : M ImageWorld Response :=
  λ w, (imageFetch env (imageFetches w) url,
        {| imageCache := imageCache w; imageOpens := imageOpens w;
           imageFetches := S (imageFetches w); imagePuts := imagePuts w |}).

Definition image_cache_put (env : ImageEnv) (url : string) (r : Response)
  : M ImageWorld unit :=
  λ w, if imageCachePut env (imagePuts w)
       then (Normal tt, {| imageCache := <[url := r]> (imageCache w);
                           imageOpens := imageOpens w;
                           imageFetches := imageFetches w; imagePuts := S (imagePuts w) |})
       else (Throw "cache.put", {| imageCache := imageCache w; imageOpens := imageOpens w;
                                   imageFetches := imageFetches w;
                                   imagePuts := S (imagePuts w) |}).

Definition bufferImage (env : ImageEnv) (url : string) : M ImageWorld unit :=
  if String.eqb url "" || negb (String.prefix "http" url) then mret tt else
  try_catch
    (image_caches_open env ;;
     hit ← (λ w, (Normal (imageCache w !! url), w)) ;
     match hit with
     | Some _ => mret tt
     | None =>
         response ← image_fetch env url ;
         if ok response then image_cache_put env url response else mret tt
     end)
    (λ _, mret tt).

(** Array elements are distinct objects, so the [Set] of [initSmartBuffering]
    tells them apart by their position in [videos]. *)
Fixpoint trendingFrom (i : nat) (videos : list SmartLogic.Video) : list nat :=
  match videos with
  | [] => []
  | v :: rest =>
      if SmartLogic.is_trending v then i :: trendingFrom (S i) rest
      else trendingFrom (S i) rest
  end.

(** Positions of the videos [initSmartBuffering] puts in its queue. *)
Definition seedQueue (videos : list SmartLogic.Video) : list nat :=
  let trending := take 3 (trendingFrom 0 videos) in
  let newest := take 5 (seq 0 (length videos)) in
  Js.uniq (trending ++ newest).

Inductive BufferCall :=
| CallBufferVideoChunk (url : string)
| CallBufferImage (url : string).

(** The calls [queue.forEach] starts, in order; none of them is awaited. *)
Definition callsFor (v : SmartLogic.Video) : list BufferCall :=
  (if String.eqb (SmartLogic.video_url v) "" then []
   else [CallBufferVideoChunk (SmartLogic.video_url v)])
  ++ match SmartLogic.poster_url v with
     | Some u => if String.eqb u "" then [] else [CallBufferImage u]
     | None => []
     end.

Definition initSmartBuffering (videos : list SmartLogic.Video) : list BufferCall :=
  if (length videos =? 0)%nat then [] else
  flat_map (λ i, match videos !! i with
                 | Some v => callsFor v
                 | None => []
                 end) (seedQueue videos).

End SmartCache.

(** ** elevenLabsManager.ts: the narration key pool *)

Module ElevenLabs.

(** Narration text is a JavaScript string: a sequence of UTF-16 code units. *)
Definition Text : Type := list N.

Definition Listener : Type := nat.

Record Audio := { objectUrl : nat }.

Inductive Status := active | empty | error.

#[export] Instance Status_eq_dec : EqDecision Status.
Proof. solve_decision. Defined.

Record KeyStats := {
  key : string;
  used : Z;
  limit : Z;
  remaining : Z;
  status : Status
}.

(** The document [settings/api_config]; a field may be missing. *)
Record ApiConfig := {
  elevenlabs_keys : option (list string);
  elevenlabs_index : option Z
}.

(** Body of the subscription endpoint once parsed. *)
Record Subscription := {
  character_count : option Z;
  character_limit : option Z
}.

(** [json] is [None] when the body does not parse. *)
Record ProbeResponse := { probeStatus : Z; json : option Subscription }.

(** [audio] is [None] when the body cannot be read. *)
Record SpeechResponse := { speechStatus : Z; audio : option nat }.

Definition httpOk (st : Z) : bool := (200 <=? st)%Z && (st <=? 299)%Z.

(** Answers of the outside world, by call number. *)
Record Env := {
  getDocOk : nat → bool;
  updateDocOk : nat → bool;
  subscription : nat → string → Completion ProbeResponse;
  textToSpeech : nat → string → Text → Completion SpeechResponse
}.

(** The module-level singletons ([currentAudio], [audioListeners]), the log
    of the values handed to listeners (oldest first), the stored document,
    and the number of document reads, document writes, quota probes and
    narration requests made so far. *)
Record World := {
  currentAudio : option Audio;
  audioListeners : list Listener;
  delivered : list (Listener * bool);
  api_config : option ApiConfig;
  reads : nat;
  writes : nat;
  probes : nat;
  requests : nat
}.

Definition notifyListeners (isPlaying : bool) : M World unit :=
  modify (λ w,
    {| currentAudio := currentAudio w; audioListeners := audioListeners w;
       delivered := delivered w ++ map (λ l, (l, isPlaying)) (audioListeners w);
       api_config := api_config w; reads := reads w; writes := writes w;
       probes := probes w; requests := requests w |}).

Definition setCurrentAudio (a : option Audio) : M World unit :=
  modify (λ w,
    {| currentAudio := a; audioListeners := audioListeners w;
       delivered := delivered w; api_config := api_config w;
       reads := reads w; writes := writes w;
       probes := probes w; requests := requests w |}).

Definition stopCurrentNarrative : M World unit :=
  w ← get ;
  match currentAudio w with
  | Some _ => setCurrentAudio None ;; notifyListeners false
  | None => mret tt
  end.

(** The value a listener received last, if it received any. *)
Definition lastDelivered (l : Listener) (log : list (Listener * bool)) : option bool :=
  snd <$> last (List.filter (λ p, (p.1 =? l)%nat) log).

(** *** Key statistics and ordering *)

Definition fetch_subscription (env : Env) (apiKey : string) : M World ProbeResponse :=
  λ w, (subscription env (probes w) apiKey,
        {| currentAudio := currentAudio w; audioListeners := audioListeners w;
           delivered := delivered w; api_config := api_config w;
           reads := reads w; writes := writes w;
           probes := S (probes w); requests := requests w |}).

Definition errorStats (apiKey : string) : KeyStats :=
  {| key := apiKey; used := 0; limit := 0; remaining := -1; status := error |}.

Definition checkKeyUsage (env : Env) (apiKey : string) : M World KeyStats :=
  try_catch
    (response ← fetch_subscription env apiKey ;
     if negb (httpOk (probeStatus response)) then mret (errorStats apiKey) else
     data ← match json response with
            | Some d => mret d
            | None => throw "response.json"
            end ;
     let used := default 0%Z (character_count data) in
     let limit := default 0%Z (character_limit data) in
     let remaining := (limit - used)%Z in
     mret {| key := apiKey; used := used; limit := limit; remaining := remaining;
             status := if (100 <? remaining)%Z then active else empty |})
    (λ _, mret (errorStats apiKey)).

(** The statistics [checkKeyUsage] returns for [apiKey] when its request is
    answered by [answer]. *)
Definition statsOf (apiKey : string) (answer : Completion ProbeResponse) : KeyStats :=
  match answer with
  | Normal response =>
      if negb (httpOk (probeStatus response)) then errorStats apiKey else
      match json response with
      | Some data =>
          let used := default 0%Z (character_count data) in
          let limit := default 0%Z (character_limit data) in
          let remaining := (limit - used)%Z in
          {| key := apiKey; used := used; limit := limit; remaining := remaining;
             status := if (100 <? remaining)%Z then active else empty |}
      | None => errorStats apiKey
      end
  | Throw _ => errorStats apiKey
  end.

(** The [for ... of] loop that fills [stats]. *)
Fixpoint collectStats (env : Env) (keys : list string) : M World (list KeyStats) :=
  match keys with
  | [] => mret []
  | k :: rest =>
      if (String.length k <? 10)%nat then collectStats env rest else
      stat ← checkKeyUsage env k ;
      stats ← collectStats env rest ;
      mret (stat :: stats)
  end.

(** The comparator handed to [stats.sort]. *)
Definition byQuota (a b : KeyStats) (u : unit) : Q * unit :=
  if bool_decide (status a = active) && negb (bool_decide (status b = active))
  then (inject_Z (-1), u)
  else if negb (bool_decide (status a = active)) && bool_decide (status b = active)
  then (inject_Z 1, u)
  else if bool_decide (status a = active) && bool_decide (status b = active)
  then (inject_Z (remaining b - remaining a), u)
  else (inject_Z 0, u).

(** The order the comparator stands for: active entries first, and among
    active entries the larger remaining quota first. *)
Definition quotaOrder (a b : KeyStats) : Prop :=
  (status b = active → status a = active) ∧
  (status a = active → status b = active → (remaining b ≤ remaining a)%Z).

Definition optimizeKeyStats (env : Env) (keys : list string) : M World (list KeyStats) :=
  if (length keys =? 0)%nat then mret [] else
  stats ← collectStats env keys ;
  mret (Js.sort byQuota stats tt).1.

Definition optimizeKeyOrder (env : Env) (keys : list string) : M World (list string) :=
  stats ← optimizeKeyStats env keys ;
  mret (map key stats).

(** *** Key resolution and rotation *)

Record KeyData := {
  kd_key : option string;
  kd_index : Z;
  kd_totalKeys : nat;
  kd_allKeys : list string
}.

(** [ensureAuth] followed by [getDoc]: the snapshot data, or a thrown error. *)
Definition getDoc (env : Env) : M World (option ApiConfig) :=
  λ w, let w1 := {| currentAudio := currentAudio w; audioListeners := audioListeners w;
                    delivered := delivered w; api_config := api_config w;
                    reads := S (reads w); writes := writes w;
                    probes := probes w; requests := requests w |} in
       if getDocOk env (reads w) then (Normal (api_config w), w1)
       else (Throw "getDoc", w1).

(** [keys[currentIndex]]: [undefined] outside the array. *)
Definition keyAt (keys : list string) (currentIndex : Z) : option string :=
  if (currentIndex <? 0)%Z then None else keys !! Z.to_nat currentIndex.

Definition getActiveKeyData (env : Env) : M World (option KeyData) :=
  try_catch
    (snapshot ← getDoc env ;
     match snapshot with
     | None => mret None
     | Some data =>
         let keys := default [] (elevenlabs_keys data) in
         let currentIndex := default 0%Z (elevenlabs_index data) in
         if (length keys =? 0)%nat then mret None else
         let currentIndex :=
           if (Z.of_nat (length keys) <=? currentIndex)%Z then 0%Z else currentIndex in
         mret (Some {| kd_key := keyAt keys currentIndex; kd_index := currentIndex;
                       kd_totalKeys := length keys; kd_allKeys := keys |})
     end)
    (λ _, mret None).

(** The key a narration call will send, when one is resolved. *)
Definition resolvedKey (env : Env) (w : World) : option string :=
  match (getActiveKeyData env w).1 with
  | Normal (Some kd) => kd_key kd
  | _ => None
  end.

(** [updateDoc] rejects when the call fails or the document is absent. *)
Definition updateDoc_index (env : Env) (newIndex : Z) : M World unit :=
  λ w, let cfg :=
         match api_config w with
         | Some c => if updateDocOk env (writes w)
                     then Some {| elevenlabs_keys := elevenlabs_keys c;
                                  elevenlabs_index := Some newIndex |}
                     else Some c
         | None => None
         end in
       let w1 := {| currentAudio := currentAudio w; audioListeners := audioListeners w;
                    delivered := delivered w; api_config := cfg;
                    reads := reads w; writes := S (writes w);
                    probes := probes w; requests := requests w |} in
       match api_config w with
       | Some _ => if updateDocOk env (writes w) then (Normal tt, w1)
                   else (Throw "updateDoc", w1)
       | None => (Throw "updateDoc", w1)
       end.

Definition switchToNextKey (env : Env) (oldIndex : Z) : M World unit :=
  try_catch (updateDoc_index env (oldIndex + 1)%Z) (λ _, mret tt).

(** *** Text clean-up *)

Definition inRange (lo hi c : N) : bool := (lo <=? c)%N && (c <=? hi)%N.

(** White space and line terminators removed by [String.prototype.trim]. *)
Definition isWhiteSpace (c : N) : bool :=
  inRange 0x09 0x0D c || (c =? 0x20)%N || (c =? 0xA0)%N || (c =? 0x1680)%N
  || inRange 0x2000 0x200A c || (c =? 0x2028)%N || (c =? 0x2029)%N
  || (c =? 0x202F)%N || (c =? 0x205F)%N || (c =? 0x3000)%N || (c =? 0xFEFF)%N.

Fixpoint trimStart (t : Text) : Text :=
  match t with
  | [] => []
  | c :: rest => if isWhiteSpace c then trimStart rest else t
  end.

Definition trim (t : Text) : Text := rev (trimStart (rev (trimStart t))).

(** The one-unit alternatives of the pattern. *)
Definition decorUnit (c : N) : bool :=
  inRange 0x2700 0x27BF c || inRange 0xE000 0xF8FF c || inRange 0x2011 0x26FF c.

(** The two-unit alternatives of the pattern. *)
Definition decorPair (c d : N) : bool :=
  ((c =? 0xD83C)%N && inRange 0xDC00 0xDFFF d)
  || ((c =? 0xD83D)%N && inRange 0xDC00 0xDFFF d)
  || ((c =? 0xD83E)%N && inRange 0xDD10 0xDDFF d).

(** [text.replace(/.../g, '')]: one left-to-right pass. *)
Fixpoint replaceDecor (t : Text) : Text :=
  match t with
  | [] => []
  | c :: rest =>
      if decorUnit c then replaceDecor rest else
      match rest with
      | d :: rest' => if decorPair c d then replaceDecor rest' else c :: replaceDecor rest
      | [] => [c]
      end
  end.

(** *** Narration *)

Definition fetch_speech (env : Env) (apiKey : string) (cleanText : Text)
  : M World SpeechResponse :=
  λ w, (textToSpeech env (requests w) apiKey cleanText,
        {| currentAudio := currentAudio w; audioListeners := audioListeners w;
           delivered := delivered w; api_config := api_config w;
           reads := reads w; writes := writes w;
           probes := probes w; requests := S (requests w) |}).

Definition response_audio (r : SpeechResponse) : M World nat :=
  match audio r with
  | Some u => mret u
  | None => throw "response.blob"
  end.

Definition isRotationStatus (st : Z) : bool :=
  (st =? 401)%Z || (st =? 429)%Z || (st =? 402)%Z.

Equations? playNarrative (env : Env) (text : Text) (retryCount : nat)
  : M World unit by wf (4 - retryCount) lt :=
  playNarrative env text retryCount with le_lt_dec retryCount 3 := {
    | right _ => notifyListeners false
    | left _ =>
        stopCurrentNarrative ;;
        if (length text =? 0)%nat || (length (trim text) =? 0)%nat then mret tt else
        let cleanText := trim (replaceDecor text) in
        if (length cleanText =? 0)%nat then mret tt else
        keyData ← getActiveKeyData env ;
        match keyData with
        | None => notifyListeners false
        | Some kd =>
            match kd_key kd with
            | None => notifyListeners false
            | Some apiKey =>
                if String.eqb apiKey "" then notifyListeners false else
                try_catch
                  (response ← fetch_speech env apiKey cleanText ;
                   if negb (httpOk (speechStatus response)) then
                     if isRotationStatus (speechStatus response) then
                       switchToNextKey env (kd_index kd) ;;
                       playNarrative env text (retryCount + 1)
                     else throw "ElevenLabs API Error"
                   else
                     url ← response_audio response ;
                     setCurrentAudio (Some {| objectUrl := url |}))
                  (λ _, notifyListeners false)
            end
        end }.
Proof. lia. Qed.

(** [subscribeToAudioState(listener)] registers the listener ... *)
Definition subscribeToAudioState (listener : Listener) : M World unit :=
  modify (λ w,
    {| currentAudio := currentAudio w; audioListeners := audioListeners w ++ [listener];
       delivered := delivered w; api_config := api_config w;
       reads := reads w; writes := writes w;
       probes := probes w; requests := requests w |}).

(** ... and the function it returns removes every registration of it. *)
Definition unsubscribe (listener : Listener) : M World unit :=
  modify (λ w,
    {| currentAudio := currentAudio w;
       audioListeners := List.filter (λ l, negb (l =? listener)%nat) (audioListeners w);
       delivered := delivered w; api_config := api_config w;
       reads := reads w; writes := writes w;
       probes := probes w; requests := requests w |}).

(** What a listener was handed, oldest first. *)
Definition receivedBy (l : Listener) (log : list (Listener * bool)) : list bool :=
  map snd (List.filter (λ p, (p.1 =? l)%nat) log).

End ElevenLabs.

(** ** App.tsx: the updates of the interaction state *)

Module App.
Import SmartLogic.

(** [ids.filter(x => x !== id)] *)
Definition without (id : string) (ids : list string) : list string :=
  List.filter (λ x, negb (String.eqb x id)) ids.

Definition handleLikeToggle (id : string) (p : UserInteractions) : UserInteractions :=
  let isAlreadyLiked := bool_decide (id ∈ likedIds p) in
  if isAlreadyLiked then
    {| likedIds := without id (likedIds p); dislikedIds := dislikedIds p;
       savedIds := savedIds p; savedCategoryNames := savedCategoryNames p;
       watchHistory := watchHistory p; downloadedIds := downloadedIds p |}
  else
    {| likedIds := likedIds p ++ [id]; dislikedIds := without id (dislikedIds p);
       savedIds := savedIds p; savedCategoryNames := savedCategoryNames p;
       watchHistory := watchHistory p; downloadedIds := downloadedIds p |}.

Definition handleDislike (id : string) (p : UserInteractions) : UserInteractions :=
  {| likedIds := without id (likedIds p);
     dislikedIds := Js.uniq (dislikedIds p ++ [id]);
     savedIds := savedIds p; savedCategoryNames := savedCategoryNames p;
     watchHistory := watchHistory p; downloadedIds := downloadedIds p |}.

Definition onSave (id : string) (p : UserInteractions) : UserInteractions :=
  let isSaved := bool_decide (id ∈ savedIds p) in
  {| likedIds := likedIds p; dislikedIds := dislikedIds p;
     savedIds := if isSaved then without id (savedIds p) else savedIds p ++ [id];
     savedCategoryNames := savedCategoryNames p;
     watchHistory := watchHistory p; downloadedIds := downloadedIds p |}.

Definition onProgress (id : string) (progress : Q) (p : UserInteractions)
  : UserInteractions :=
  let history := List.filter (λ h, negb (String.eqb (hid h) id)) (watchHistory p) in
  {| likedIds := likedIds p; dislikedIds := dislikedIds p;
     savedIds := savedIds p; savedCategoryNames := savedCategoryNames p;
     watchHistory := history ++ [{| hid := id; progress := progress |}];
     downloadedIds := downloadedIds p |}.

End App.

(** ** SmartLogic.ts: the interest profile of [SmartBrainLogic] *)

Module SmartBrain.

Inductive Gender := male | female.

(** A profile document; [Partial<UserProfile>] is the same record with the
    absent fields [None]. *)
Record UserProfile := {
  name : option string;
  gender : option Gender;
  interests : option (list string);
  last_voice_limit_hit : option Z
}.

Record Env := {
  ensureAuth : nat → Completion (option string);
  getDocOk : nat → bool;
  setDocOk : nat → bool;
  setItemOk : nat → bool
}.

(** The field [localInterests], the local-storage item
    [smart_brain_interests], the collection [users], and the calls so far. *)
Record World := {
  localInterests : list string;
  smart_brain_interests : option (list string);
  users : gmap string UserProfile;
  auths : nat;
  docReads : nat;
  docWrites : nat;
  itemWrites : nat
}.

Definition setLocalInterests (l : list string) : M World unit :=
  modify (λ w,
    {| localInterests := l; smart_brain_interests := smart_brain_interests w;
       users := users w; auths := auths w; docReads := docReads w;
       docWrites := docWrites w; itemWrites := itemWrites w |}).

(** [localStorage.setItem('smart_brain_interests', JSON.stringify(localInterests))] *)
Definition storeInterests (env : Env) : M World unit :=
  λ w, if setItemOk env (itemWrites w)
       then (Normal tt,
             {| localInterests := localInterests w;
                smart_brain_interests := Some (localInterests w);
                users := users w; auths := auths w; docReads := docReads w;
                docWrites := docWrites w; itemWrites := S (itemWrites w) |})
       else (Throw "localStorage.setItem",
             {| localInterests := localInterests w;
                smart_brain_interests := smart_brain_interests w;
                users := users w; auths := auths w; docReads := docReads w;
                docWrites := docWrites w; itemWrites := S (itemWrites w) |}).

Definition auth (env : Env) : M World (option string) :=
  λ w, (ensureAuth env (auths w),
        {| localInterests := localInterests w;
           smart_brain_interests := smart_brain_interests w;
           users := users w; auths := S (auths w); docReads := docReads w;
           docWrites := docWrites w; itemWrites := itemWrites w |}).

(** [setDoc(ref, data, { merge: true })]: the fields present in [data]
    replace those of the stored document. *)
Definition mergeProfile (old : option UserProfile) (data : UserProfile) : UserProfile :=
  match old with
  | None => data
  | Some o =>
      {| name := match name data with Some x => Some x | None => name o end;
         gender := match gender data with Some x => Some x | None => gender o end;
         interests := match interests data with Some x => Some x | None => interests o end;
         last_voice_limit_hit :=
           match last_voice_limit_hit data with
           | Some x => Some x
           | None => last_voice_limit_hit o
           end |}
  end.

Definition setDoc_merge (env : Env) (uid : string) (data : UserProfile) : M World unit :=
  λ w, if setDocOk env (docWrites w)
       then (Normal tt,
             {| localInterests := localInterests w;
                smart_brain_interests := smart_brain_interests w;
                users := <[uid := mergeProfile (users w !! uid) data]> (users w);
                auths := auths w; docReads := docReads w;
                docWrites := S (docWrites w); itemWrites := itemWrites w |})
       else (Throw "setDoc",
             {| localInterests := localInterests w;
                smart_brain_interests := smart_brain_interests w;
                users := users w; auths := auths w; docReads := docReads w;
                docWrites := S (docWrites w); itemWrites := itemWrites w |}).

Definition getDoc_user (env : Env) (uid : string) : M World (option UserProfile) :=
  λ w, let w1 := {| localInterests := localInterests w;
                    smart_brain_interests := smart_brain_interests w;
                    users := users w; auths := auths w; docReads := S (docReads w);
                    docWrites := docWrites w; itemWrites := itemWrites w |} in
       if getDocOk env (docReads w) then (Normal (users w !! uid), w1)
       else (Throw "getDoc", w1).

Definition updateUserProfile (env : Env) (uid : string) (data : UserProfile)
  : M World unit :=
  try_catch (setDoc_merge env uid data) (λ _, mret tt).

Definition getTopInterests : M World (list string) :=
  w ← get ; mret (localInterests w).

Definition saveInterest (env : Env) (interest : string) : M World unit :=
  if String.eqb interest "" then mret tt else
  w ← get ;
  if bool_decide (interest ∈ localInterests w) then mret tt else
  setLocalInterests (localInterests w ++ [interest]) ;;
  storeInterests env ;;
  try_catch
    (user ← auth env ;
     match user with
     | Some uid =>
         w1 ← get ;
         updateUserProfile env uid
           {| name := None; gender := None; interests := Some (localInterests w1);
              last_voice_limit_hit := None |}
     | None => mret tt
     end)
    (λ _, mret tt).

Definition getUserProfile (env : Env) (uid : string) : M World UserProfile :=
  found ← try_catch
    (docSnap ← getDoc_user env uid ;
     match docSnap with
     | Some data =>
         match interests data with
         | Some remote =>
             w ← get ;
             setLocalInterests (Js.uniq (localInterests w ++ remote)) ;;
             storeInterests env
         | None => mret tt
         end ;;
         mret (Some data)
     | None => mret None
     end)
    (λ _, mret None) ;
  match found with
  | Some data => mret data
  | None =>
      w ← get ;
      mret {| name := None; gender := None; interests := Some (localInterests w);
              last_voice_limit_hit := None |}
  end.

End SmartBrain.

(** ** Sample data used to exercise the statements *)

Module Samples.
Import SmartLogic.

Definition clip (i c : string) (t : bool) : Video :=
  {| id := i; title := "clip " +:+ i; category := c; is_trending := t;
     video_url := "https://cdn.example/" +:+ i +:+ ".mp4"; poster_url := None |}.

Definition interactionsOf (disliked : list string) (history : list WatchEntry)
  : UserInteractions :=
  {| likedIds := []; dislikedIds := disliked; savedIds := []; savedCategoryNames := [];
     watchHistory := history; downloadedIds := [] |}.

Definition seen (i : string) (p : Q) : WatchEntry := {| hid := i; progress := p |}.

(** A random source that cycles through four draws. *)
Definition draws : Js.Random :=
  λ n, match n `mod` 4 with
       | 0 => 1 # 10
       | 1 => 7 # 10
       | 2 => 3 # 10
       | _ => 6 # 10
       end%nat.

(** The draws 0.5 and 0.5 + 2^-52: with the interest boost added, their
    scores are the same double. *)
Definition nearTie : Js.Random :=
  λ n, match n with
       | O => 1 # 2
       | S _ => (1 # 2) + (1 # 4503599627370496)
       end%Q.

Definition corpus3 : list Video :=
  [clip "v1" "horror" false; clip "v2" "drama" true; clip "v3" "drama" false].

(** A media server that honours the range request, over a working store. *)
Definition cdnUp : SmartCache.Env :=
  {| SmartCache.cachesOpen := λ _, true;
     SmartCache.fetch := λ _ _ _,
       Normal {| SmartCache.status := 206; SmartCache.contentType := Some "video/mp4";
                 SmartCache.blob := Some [Byte.x00; Byte.x01; Byte.x02] |};
     SmartCache.cachePut := λ _, true |}.

(** A media server that answers 503 to every request. *)
Definition cdnDown : SmartCache.Env :=
  {| SmartCache.cachesOpen := λ _, true;
     SmartCache.fetch := λ _ _ _,
       Normal {| SmartCache.status := 503; SmartCache.contentType := None;
                 SmartCache.blob := Some [] |};
     SmartCache.cachePut := λ _, true |}.

Definition emptyStore : SmartCache.World :=
  {| SmartCache.videoBuffer := ∅; SmartCache.opens := 0;
     SmartCache.fetches := 0; SmartCache.puts := 0 |}.

Definition mediaUrl : string := "https://cdn.example/v1.mp4".

Definition keyA : string := "key-a-0123456789".
Definition keyB : string := "key-b-0123456789".
Definition keyC : string := "key-c-0123456789".

Definition quota (used limit : Z) : Completion ElevenLabs.ProbeResponse :=
  Normal {| ElevenLabs.probeStatus := 200;
            ElevenLabs.json := Some {| ElevenLabs.character_count := Some used;
                                       ElevenLabs.character_limit := Some limit |} |}.

(** Narration answers [speech] to every request; the probe reports 110 free
    characters for key a, 1000 for key b, and fails for every other key. *)
Definition provider (speech : Z) : ElevenLabs.Env :=
  {| ElevenLabs.getDocOk := λ _, true;
     ElevenLabs.updateDocOk := λ _, true;
     ElevenLabs.subscription := λ _ k,
       if String.eqb k keyA then quota 9890 10000
       else if String.eqb k keyB then quota 9000 10000
       else Throw "network";
     ElevenLabs.textToSpeech := λ _ _ _,
       Normal {| ElevenLabs.speechStatus := speech; ElevenLabs.audio := Some 0%nat |} |}.

(** The probe of the three-key example with one-letter keys: 10 free
    characters for "a", 100 for "b", a failure for "c". *)
Definition shortKeyProvider : ElevenLabs.Env :=
  {| ElevenLabs.getDocOk := λ _, true;
     ElevenLabs.updateDocOk := λ _, true;
     ElevenLabs.subscription := λ _ k,
       if String.eqb k "a" then quota 0 10
       else if String.eqb k "b" then quota 0 100
       else Throw "network";
     ElevenLabs.textToSpeech := λ _ _ _,
       Normal {| ElevenLabs.speechStatus := 200; ElevenLabs.audio := Some 0%nat |} |}.

(** Two subscribers, a narration playing, and a pool of three keys. *)
Definition playing (index : Z) : ElevenLabs.World :=
  {| ElevenLabs.currentAudio := Some {| ElevenLabs.objectUrl := 0 |};
     ElevenLabs.audioListeners := [7; 8]%nat;
     ElevenLabs.delivered := [(7, true); (8, true)]%nat;
     ElevenLabs.api_config :=
       Some {| ElevenLabs.elevenlabs_keys := Some [keyA; keyB; keyC];
               ElevenLabs.elevenlabs_index := Some index |};
     ElevenLabs.reads := 0; ElevenLabs.writes := 0;
     ElevenLabs.probes := 0; ElevenLabs.requests := 0 |}.

(** "hi" *)
Definition hello : ElevenLabs.Text := [0x68; 0x69]%N.

(** A heavy black heart followed by the surrogate pair of an emoji. *)
Definition hearts : ElevenLabs.Text := [0x2764; 0xD83D; 0xDE00]%N.

End Samples.

(** * Properties *)

(** ** Proof steps for asynchronous code *)

Module AsyncTactics.

Ltac run :=
  unfold mbind, mret, M_bind, M_ret, bind, ret, throw, try_catch, get, modify in *;
  simpl in *.

(** Case analysis on an innermost test of the goal. *)
Ltac branch :=
  match goal with
  | |- context [match ?c with _ => _ end] =>
      lazymatch c with
      | context [match _ with _ => _ end] => fail
      | _ => destruct c eqn:?
      end
  end; simpl in *.

Ltac branches := repeat branch.

End AsyncTactics.

(** ** Rounding to doubles *)

Module DoubleFacts.
Import Js.

Local Open Scope Q_scope.

Lemma two_pos e : 0 < 2 ^ e.
Proof. by apply Qpower_0_lt. Qed.

Lemma two_add u v : 2 ^ (u + v) == 2 ^ u * 2 ^ v.
Proof. by apply Qpower_plus. Qed.

Lemma two_le u v : (u ≤ v)%Z → 2 ^ u <= 2 ^ v.
Proof. intros. by apply Qpower_le_compat_l. Qed.

Lemma two_Z n : (0 ≤ n)%Z → 2 ^ n == inject_Z (2 ^ n).
Proof. intros. symmetry. by apply (Zpower_Qpower 2). Qed.

Lemma two_cancel e : 2 ^ (- e) * 2 ^ e == 1.
Proof. rewrite <- two_add. by replace (- e + e)%Z with 0%Z by lia. Qed.

Lemma floor_Z z : Qfloor (inject_Z z) = z.
Proof. unfold Qfloor, inject_Z. apply Z.div_1_r. Qed.

Ltac compared :=
  repeat match goal with
         | H : (_ ?= _) = Eq |- _ => apply Qeq_alt in H
         | H : (_ ?= _) = Lt |- _ => apply Qlt_alt in H
         | H : (_ ?= _) = Gt |- _ => apply Qgt_alt in H
         end.

Lemma round_bounds q :
  (Qfloor q ≤ roundTiesToEven q ≤ Qfloor q + 1)%Z.
Proof.
  unfold roundTiesToEven.
  destruct (q - inject_Z (Qfloor q) ?= 1 # 2); [destruct (Z.even _)|..]; lia.
Qed.

Lemma round_mono p q : p <= q → (roundTiesToEven p ≤ roundTiesToEven q)%Z.
Proof.
  intros Hpq.
  pose proof (Qfloor_resp_le _ _ Hpq) as Hfloor.
  destruct (Z.eq_dec (Qfloor p) (Qfloor q)) as [Heq|Hne].
  - unfold roundTiesToEven. rewrite Heq.
    destruct (q - inject_Z (Qfloor q) ?= 1 # 2) eqn:Hq;
      destruct (p - inject_Z (Qfloor q) ?= 1 # 2) eqn:Hp;
      try (destruct (Z.even (Qfloor q))); try lia;
      compared; lra.
  - pose proof (round_bounds p). pose proof (round_bounds q). lia.
Qed.

Lemma round_Z z : roundTiesToEven (inject_Z z) = z.
Proof.
  unfold roundTiesToEven. rewrite floor_Z.
  assert ((inject_Z z - inject_Z z ?= 1 # 2) = Lt) as ->; [|done].
  rewrite <- Qlt_alt. lra.
Qed.

Lemma round_comp p q : p == q → roundTiesToEven p = roundTiesToEven q.
Proof.
  intros Hpq. apply Z.le_antisymm; apply round_mono; lra.
Qed.

(** [magnitude] is the integer part of the binary logarithm. *)
Lemma magnitude_spec a : 0 < a → 2 ^ magnitude a <= a < 2 ^ (magnitude a + 1).
Proof.
  intros Ha. destruct a as [n d]. unfold magnitude. cbn [Qnum Qden].
  assert (0 < n)%Z as Hn by (unfold Qlt in Ha; simpl in Ha; lia).
  pose proof (Z.log2_spec n Hn) as [Hn1 Hn2].
  pose proof (Z.log2_spec (Z.pos d) (Pos2Z.is_pos d)) as [Hd1 Hd2].
  pose proof (Z.log2_nonneg n) as Hln. pose proof (Z.log2_nonneg (Z.pos d)) as Hld.
  set (ln := Z.log2 n) in *. set (ld := Z.log2 (Z.pos d)) in *.
  assert ((n # d) * inject_Z (Z.pos d) == inject_Z n) as Hnd.
  { unfold Qeq, Qmult, inject_Z. simpl. lia. }
  assert (2 ^ (ln - ld - 1) < n # d) as Hlow.
  { apply (Qmult_lt_r _ _ (2 ^ (ld + 1))); [apply two_pos|].
    rewrite <- two_add. replace (ln - ld - 1 + (ld + 1))%Z with ln by lia.
    apply Qle_lt_trans with (inject_Z n).
    - rewrite two_Z by lia. by rewrite <- Zle_Qle.
    - rewrite <- Hnd. apply Qmult_lt_l; [done|].
      rewrite two_Z by lia. by rewrite <- Zlt_Qlt. }
  assert (n # d < 2 ^ (ln - ld + 1)) as Hhigh.
  { apply (Qmult_lt_r _ _ (2 ^ ld)); [apply two_pos|].
    rewrite <- two_add. replace (ln - ld + 1 + ld)%Z with (ln + 1)%Z by lia.
    apply Qle_lt_trans with (inject_Z n).
    - rewrite <- Hnd. apply Qmult_le_l; [done|].
      rewrite two_Z by lia. by rewrite <- Zle_Qle.
    - rewrite two_Z by lia. by rewrite <- Zlt_Qlt. }
  destruct (Qle_bool (2 ^ (ln - ld)) (n # d)) eqn:Hle.
  - apply Qle_bool_iff in Hle. by split.
  - replace (ln - ld - 1 + 1)%Z with (ln - ld)%Z by lia.
    split; [by apply Qlt_le_weak|].
    apply Qnot_le_lt. intros Hge. apply Qle_bool_iff in Hge. congruence.
Qed.

Lemma magnitude_unique a k : 2 ^ k <= a < 2 ^ (k + 1) → 0 < a → magnitude a = k.
Proof.
  intros [Hk1 Hk2] Ha. destruct (magnitude_spec a Ha) as [Hm1 Hm2].
  assert (k < magnitude a + 1)%Z.
  { apply (Qpower_lt_compat_l_inv 2); [|done]. by apply Qle_lt_trans with a. }
  assert (magnitude a < k + 1)%Z.
  { apply (Qpower_lt_compat_l_inv 2); [|done]. by apply Qle_lt_trans with a. }
  lia.
Qed.

Lemma magnitude_mono a b : 0 < a → a <= b → (magnitude a ≤ magnitude b)%Z.
Proof.
  intros Ha Hab.
  destruct (magnitude_spec a Ha) as [Ha1 _].
  destruct (magnitude_spec b) as [_ Hb2]; [lra|].
  assert (magnitude a < magnitude b + 1)%Z; [|lia].
  apply (Qpower_lt_compat_l_inv 2); [|done]. lra.
Qed.

Lemma exponent_mono a b : 0 < a → a <= b → (exponent a ≤ exponent b)%Z.
Proof. intros Ha Hab. pose proof (magnitude_mono a b Ha Hab). unfold exponent. lia. Qed.

Lemma roundPositive_mono a b : 0 < a → a <= b → roundPositive a <= roundPositive b.
Proof.
  intros Ha Hab. pose proof (exponent_mono a b Ha Hab) as He.
  unfold roundPositive.
  destruct (Z.eq_dec (exponent a) (exponent b)) as [Heq|Hne].
  - rewrite Heq. apply Qmult_le_compat_r; [|apply Qlt_le_weak, two_pos].
    rewrite <- Zle_Qle. apply round_mono.
    apply Qmult_le_compat_r; [done|apply Qlt_le_weak, two_pos].
  - assert (exponent a + 1 ≤ exponent b)%Z as Hlt by lia.
    assert (exponent b = magnitude b - 52)%Z as Hb by (unfold exponent in *; lia).
    assert (magnitude a - 52 ≤ exponent a)%Z as Hka by (unfold exponent; lia).
    destruct (magnitude_spec a Ha) as [_ Ha2].
    destruct (magnitude_spec b) as [Hb1 _]; [lra|].
    apply Qle_trans with (2 ^ (exponent b + 52)).
    + apply Qle_trans with (inject_Z (2 ^ 53) * 2 ^ exponent a).
      * apply Qmult_le_compat_r; [|apply Qlt_le_weak, two_pos].
        rewrite <- Zle_Qle. rewrite <- (round_Z (2 ^ 53)). apply round_mono.
        rewrite <- two_Z by lia.
        apply Qle_trans with (2 ^ (magnitude a + 1) * 2 ^ (- exponent a)).
        -- apply Qmult_le_compat_r; [lra|apply Qlt_le_weak, two_pos].
        -- rewrite <- two_add. apply two_le. lia.
      * rewrite <- two_Z by lia. rewrite <- two_add. apply two_le. lia.
    + apply Qle_trans with (inject_Z (2 ^ 52) * 2 ^ exponent b).
      * rewrite <- two_Z by lia. rewrite <- two_add. apply two_le. lia.
      * apply Qmult_le_compat_r; [|apply Qlt_le_weak, two_pos].
        rewrite <- Zle_Qle. rewrite <- (round_Z (2 ^ 52)). apply round_mono.
        rewrite <- two_Z by lia.
        apply Qle_trans with (2 ^ magnitude b * 2 ^ (- exponent b)).
        -- rewrite <- two_add. apply two_le. lia.
        -- apply Qmult_le_compat_r; [done|apply Qlt_le_weak, two_pos].
Qed.

Lemma roundPositive_nonneg a : 0 < a → 0 <= roundPositive a.
Proof.
  intros Ha. unfold roundPositive.
  apply Qmult_le_0_compat; [|apply Qlt_le_weak, two_pos].
  replace 0 with (inject_Z 0) by done. rewrite <- Zle_Qle.
  rewrite <- (round_Z 0). apply round_mono.
  apply Qmult_le_0_compat; [lra|apply Qlt_le_weak, two_pos].
Qed.

Lemma toDouble_pos x : 0 < x → toDouble x == roundPositive x.
Proof.
  intros Hx. unfold toDouble. destruct x as [[|n|n] d]; try done.
  apply Qred_correct.
Qed.

Lemma toDouble_neg x : x < 0 → toDouble x == - roundPositive (- x).
Proof.
  intros Hx. unfold toDouble. destruct x as [[|n|n] d]; try done.
  apply Qred_correct.
Qed.

Lemma toDouble_zero x : x == 0 → toDouble x = 0.
Proof.
  intros Hx. unfold toDouble. destruct x as [[|n|n] d]; done.
Qed.

(** Rounding never reverses an order. *)
Lemma toDouble_mono x y : x <= y → toDouble x <= toDouble y.
Proof.
  intros Hxy.
  destruct (Q_dec x 0) as [[Hx|Hx]|Hx], (Q_dec y 0) as [[Hy|Hy]|Hy]; try lra.
  - rewrite (toDouble_neg x Hx), (toDouble_neg y Hy).
    assert (roundPositive (- y) <= roundPositive (- x)); [|lra].
    apply roundPositive_mono; lra.
  - rewrite (toDouble_neg x Hx), (toDouble_pos y Hy).
    pose proof (roundPositive_nonneg (- x)). pose proof (roundPositive_nonneg y). lra.
  - rewrite (toDouble_neg x Hx), (toDouble_zero y Hy).
    pose proof (roundPositive_nonneg (- x)). lra.
  - rewrite (toDouble_pos x Hx), (toDouble_pos y Hy). by apply roundPositive_mono.
  - rewrite (toDouble_zero x Hx), (toDouble_pos y Hy). apply roundPositive_nonneg. lra.
  - by rewrite (toDouble_zero x Hx), (toDouble_zero y Hy).
Qed.


(** Every double is a multiple of the smallest subnormal number. *)
Lemma roundPositive_grid a : ∃ m : Z, roundPositive a == inject_Z m * 2 ^ (-1074).
Proof.
  unfold roundPositive.
  exists (roundTiesToEven (a * 2 ^ (- exponent a)) * 2 ^ (exponent a + 1074))%Z.
  assert (0 ≤ exponent a + 1074)%Z as He by (unfold exponent; lia).
  rewrite inject_Z_mult, <- (two_Z _ He), <- Qmult_assoc, <- two_add.
  by replace (exponent a + 1074 + -1074)%Z with (exponent a) by lia.
Qed.

Lemma toDouble_grid x : ∃ m : Z, toDouble x == inject_Z m * 2 ^ (-1074).
Proof.
  destruct (Q_dec x 0) as [[Hx|Hx]|Hx].
  - destruct (roundPositive_grid (- x)) as [m Hm]. exists (- m)%Z.
    rewrite (toDouble_neg x Hx), Hm, inject_Z_opp. ring.
  - destruct (roundPositive_grid x) as [m Hm]. exists m.
    by rewrite (toDouble_pos x Hx).
  - exists 0%Z. rewrite (toDouble_zero x Hx). ring.
Qed.

(** The integers up to 100 are doubles. *)
Lemma toDouble_integer z : (-100 ≤ z ≤ 100)%Z → toDouble (inject_Z z) == inject_Z z.
Proof.
  intros Hz.
  assert (forallb (λ i, Qeq_bool (toDouble (inject_Z (Z.of_nat i - 100)))
                          (inject_Z (Z.of_nat i - 100))) (seq 0 201) = true) as Hall
    by (vm_compute; reflexivity).
  rewrite forallb_forall in Hall.
  specialize (Hall (Z.to_nat (z + 100))).
  replace (Z.of_nat (Z.to_nat (z + 100)) - 100)%Z with z in Hall by lia.
  apply Qeq_bool_iff, Hall, in_seq. lia.
Qed.

(** The rounded difference of two doubles has the sign of the exact one. *)
Lemma toDouble_difference x y :
  toDouble (toDouble x - toDouble y) <= 0 ↔ toDouble x <= toDouble y.
Proof.
  split.
  - intros Hle. apply Qnot_lt_le. intros Hlt.
    destruct (toDouble_grid x) as [m Hm], (toDouble_grid y) as [n Hn].
    pose proof (two_pos (-1074)) as Htiny.
    assert (0 < toDouble (2 ^ (-1074))) as Hleast by (vm_compute; reflexivity).
    remember (2 ^ (-1074)) as tiny eqn:Etiny.
    assert (1 ≤ m - n)%Z as Hgap.
    { assert (n < m)%Z; [|lia]. rewrite Zlt_Qlt.
      apply (Qmult_lt_r _ _ tiny); [done|]. by rewrite <- Hm, <- Hn. }
    assert (tiny <= toDouble x - toDouble y) as Hd.
    { rewrite Hm, Hn.
      assert (inject_Z 1 <= inject_Z (m - n)) as Hq by (by rewrite <- Zle_Qle).
      unfold Z.sub in Hq. rewrite inject_Z_plus, inject_Z_opp in Hq.
      assert (inject_Z 1 * tiny <= (inject_Z m + - inject_Z n) * tiny) as Hscaled
        by (apply Qmult_le_compat_r; [done|by apply Qlt_le_weak]).
      rewrite Qmult_1_l in Hscaled.
      apply (Qle_trans _ _ _ Hscaled). apply Qle_lteq. right. ring. }
    apply toDouble_mono in Hd. lra.
  - intros Hle.
    assert (toDouble x - toDouble y <= 0) as Hd by lra.
    apply toDouble_mono in Hd. by rewrite (toDouble_zero 0) in Hd.
Qed.

(** 0.1 is the double 3602879701896397 * 2^-55; 2^53 + 1 lies halfway between
    two doubles and goes to the even one. *)
Example toDouble_samples :
  toDouble (1 # 10) = (3602879701896397 # 36028797018963968) ∧
  toDouble 9007199254740993 = 9007199254740992 ∧
  toDouble 9007199254740995 = 9007199254740996 ∧
  toDouble (- (1 # 3)) = - (6004799503160661 # 18014398509481984).
Proof. vm_compute. done. Qed.

End DoubleFacts.

(** ** The sort model *)

Module JsFacts.
Import Js.

Section Permuted.
Context {A S : Type} (comparefn : A → A → S → Q * S).

Lemma sift_perm x placed s : (sift comparefn x placed s).1 ≡ₚ x :: placed.
  Proof.
    revert s. induction placed as [|y below IH]; intros s; simpl; [done|].
    destruct (comparefn y x s) as [c s1].
    destruct (Qle_bool c 0); [done|].
    specialize (IH s1). destruct (sift comparefn x below s1) as [r s2]; simpl in *.
    rewrite IH. apply perm_swap.
  Qed.

Lemma sort_from_perm placed todo s :
    (sort_from comparefn placed todo s).1 ≡ₚ placed ++ todo.
  Proof.
    revert placed s. induction todo as [|x rest IH]; intros placed s; simpl.
    - rewrite app_nil_r. symmetry. apply Permutation_rev.
    - pose proof (sift_perm x placed s) as Hp.
      destruct (sift comparefn x placed s) as [placed' s1]; simpl in *.
      rewrite IH, Hp. apply Permutation_middle.
  Qed.

Lemma sort_perm l s : (sort comparefn l s).1 ≡ₚ l.
  Proof. apply (sort_from_perm [] l s). Qed.
End Permuted.

Lemma shuffle_perm {A} (l : list A) rng : (shuffle l rng).1 ≡ₚ l.
Proof. apply sort_perm. Qed.

(** A comparator is consistent with a total preorder [before] on the elements
    of [dom] when it answers a number [<= 0] exactly for the pairs of [dom]
    that are already in order. *)
Section Ordered.
Context {A S : Type} (comparefn : A → A → S → Q * S).
Variable before : A → A → Prop.
Variable dom : A → Prop.
Hypothesis before_total : ∀ a b, before a b ∨ before b a.
Hypothesis before_trans : ∀ a b c, before a b → before b c → before a c.
Hypothesis comparefn_spec :
    ∀ a b s, dom a → dom b → Qle_bool (comparefn a b s).1 0 = true ↔ before a b.

Lemma sift_sorted_on x placed s :
    dom x → Forall dom placed →
    StronglySorted (flip before) placed →
    StronglySorted (flip before) (sift comparefn x placed s).1.
  Proof.
    intros Hx. revert s. induction placed as [|y below IH]; intros s Hdom Hs; simpl.
    - repeat constructor.
    - inversion Hdom as [|? ? Hy Hdom']; subst.
      pose proof (comparefn_spec y x s Hy Hx) as Hc.
      destruct (comparefn y x s) as [c s1]; simpl in Hc.
      inversion Hs as [|? ? Hbelow Hall]; subst.
      destruct (Qle_bool c 0) eqn:Hle.
      + simpl. constructor; [done|].
        assert (before y x) as Hyx by (by apply Hc).
        constructor; [done|].
        eapply Forall_impl; [exact Hall|]. unfold flip. eauto.
      + pose proof (sift_perm comparefn x below s1) as Hp.
        specialize (IH s1 Hdom' Hbelow).
        destruct (sift comparefn x below s1) as [r s2]; simpl in *.
        constructor; [done|].
        rewrite Hp. constructor; [|done].
        unfold flip. destruct (before_total x y) as [|Hyx]; [done|].
        apply Hc in Hyx. congruence.
  Qed.

Lemma sorted_snoc (l : list A) a :
    StronglySorted before l → Forall (λ z, before z a) l →
    StronglySorted before (l ++ [a]).
  Proof.
    induction 1 as [|z l Hl IH Hall]; intros Ha; simpl.
    - repeat constructor.
    - inversion Ha; subst. constructor; [auto|].
      apply Forall_app. split; [done|]. by repeat constructor.
  Qed.

Lemma rev_sorted (l : list A) :
    StronglySorted (flip before) l → StronglySorted before (rev l).
  Proof.
    induction 1 as [|a l Hl IH Hall]; simpl; [constructor|].
    apply sorted_snoc; [done|]. by apply Forall_rev.
  Qed.

Lemma sort_from_sorted_on placed todo s :
    Forall dom placed → Forall dom todo →
    StronglySorted (flip before) placed →
    StronglySorted before (sort_from comparefn placed todo s).1.
  Proof.
    revert placed s. induction todo as [|x rest IH]; intros placed s Hp Ht Hs; simpl.
    - by apply rev_sorted.
    - inversion Ht as [|? ? Hx Hrest]; subst.
      pose proof (sift_sorted_on x placed s Hx Hp Hs) as Hsorted.
      pose proof (sift_perm comparefn x placed s) as Hperm.
      destruct (sift comparefn x placed s) as [placed' s1]; simpl in *.
      apply IH; [|done..]. rewrite Hperm. by constructor.
  Qed.

Lemma sort_sorted_on l s :
    Forall dom l → StronglySorted before (sort comparefn l s).1.
  Proof. intros Hl. apply sort_from_sorted_on; [constructor|done|constructor]. Qed.
End Ordered.

(** The same for a comparator that is consistent on every pair. *)
Lemma sort_sorted {A S} (comparefn : A → A → S → Q * S) (before : A → A → Prop) :
  (∀ a b, before a b ∨ before b a) →
  (∀ a b c, before a b → before b c → before a c) →
  (∀ a b s, Qle_bool (comparefn a b s).1 0 = true ↔ before a b) →
  ∀ l s, StronglySorted before (sort comparefn l s).1.
Proof.
  intros Htotal Htrans Hspec l s.
  apply (sort_sorted_on comparefn before (λ _, True) Htotal Htrans); [auto|].
  by apply Forall_forall.
Qed.

Lemma length_zero_iff {A} (l : list A) : (length l =? 0)%nat = true ↔ l = [].
Proof. destruct l; simpl; split; congruence. Qed.

Lemma length_pos_iff {A} (l : list A) : (0 <? length l)%nat = true ↔ l ≠ [].
Proof. destruct l; simpl; split; (congruence || done). Qed.

Lemma map_st_proj {A B S C} (f : A → S → B * S) (p : B → C) (q : A → C) l s :
  (∀ x s, p (f x s).1 = q x) → map p (map_st f l s).1 = map q l.
Proof.
  intros Hf. revert s. induction l as [|x rest IH]; intros s; simpl; [done|].
  specialize (Hf x s). destruct (f x s) as [y s1]; simpl in *.
  specialize (IH s1). destruct (map_st f rest s1) as [ys s2]; simpl in *.
  by rewrite Hf, IH.
Qed.

Lemma map_st_cons {A B S} (f : A → S → B * S) x l s :
  (map_st f (x :: l) s).1 = (f x s).1 :: (map_st f l (f x s).2).1.
Proof. simpl. destruct (f x s) as [y s1]. simpl. by destruct (map_st f l s1). Qed.

(** Position in a strongly sorted list decides the order. *)
Lemma sorted_lookup {A} (R : A → A → Prop) (l : list A) i j a b :
  StronglySorted R l → (i < j)%nat → l !! i = Some a → l !! j = Some b → R a b.
Proof.
  intros Hs. revert i j. induction Hs as [|x l Hs IH Hall]; intros i j Hij Hi Hj.
  - by rewrite lookup_nil in Hi.
  - destruct j as [|j]; [lia|]. simpl in Hj.
    destruct i as [|i]; simpl in Hi.
    + injection Hi as ->. rewrite Forall_forall in Hall. apply Hall.
      by eapply list_elem_of_lookup_2.
    + apply (IH i j); [lia|done..].
Qed.

End JsFacts.

(** ** The feed ranking engine *)

Module FeedFacts.
Import Js DoubleFacts JsFacts SmartLogic.

Lemma dedupe_elem seen feed v : v ∈ dedupe seen feed → v ∈ feed.
Proof.
  revert seen. induction feed as [|x rest IH]; intros seen; simpl; [done|].
  case_bool_decide.
  - intros Hv. right. eauto.
  - rewrite !elem_of_cons. intros [->|Hv]; eauto.
Qed.

Lemma dedupe_fresh seen feed v : v ∈ dedupe seen feed → id v ∉ seen.
Proof.
  revert seen. induction feed as [|x rest IH]; intros seen; simpl.
  - by rewrite elem_of_nil.
  - case_bool_decide; [by eauto|].
    rewrite elem_of_cons. intros [->|Hv]; [done|].
    apply IH in Hv. set_solver.
Qed.

Lemma dedupe_NoDup seen feed : NoDup (map id (dedupe seen feed)).
Proof.
  revert seen. induction feed as [|x rest IH]; intros seen; simpl.
  - constructor.
  - case_bool_decide; [done|]. simpl. constructor; [|done].
    rewrite list_elem_of_fmap. intros (v & Hid & Hv).
    apply dedupe_fresh in Hv. set_solver.
Qed.

Lemma dedupe_head seen v rest : id v ∉ seen → dedupe seen (v :: rest) ≠ [].
Proof. intros Hv. simpl. by rewrite bool_decide_eq_false_2. Qed.

Lemma dedupe_distinct seen feed :
  NoDup (map id feed) → (∀ v, v ∈ feed → id v ∉ seen) → dedupe seen feed = feed.
Proof.
  revert seen. induction feed as [|x rest IH]; intros seen Hnd Hseen; simpl; [done|].
  inversion Hnd as [|? ? Hx Hrest]; subst.
  rewrite bool_decide_eq_false_2 by (apply Hseen; left).
  f_equal. apply IH; [done|].
  intros v Hv. rewrite elem_of_union, elem_of_singleton.
  intros [Heq|Hin].
  - apply Hx. rewrite <- Heq. by apply list_elem_of_fmap_2.
  - apply (Hseen v); [by right|done].
Qed.

Lemma scored_videos li pool rng :
  map video (map_st (scoreVideo li) pool rng).1 = pool.
Proof.
  rewrite (map_st_proj _ video (λ v, v)); [apply map_id|].
  intros v s. unfold scoreVideo. by destruct (Math_random s).
Qed.

Lemma feed_assembled li C I rng :
  C ≠ [] →
  ∃ F, Assembled li C I rng F ∧ generateVideoFeed li C I rng = dedupe ∅ F.
Proof.
  intros HC. unfold generateVideoFeed.
  destruct (length C =? 0)%nat eqn:HlenC; [by apply length_zero_iff in HlenC|].
  destruct (0 <? length (unwatchedPoolOf C I))%nat eqn:Hun.
  - apply length_pos_iff in Hun.
    destruct (map_st (scoreVideo li) (unwatchedPoolOf C I) rng) as [scored rng1] eqn:Hsc.
    destruct (sort byScoreDesc scored rng1) as [ranked rng2] eqn:Hso.
    assert (map video ranked ≠ []) as Hne.
    { intros Hnil. apply Hun. rewrite <- (scored_videos li _ rng), Hsc. simpl.
      apply Permutation_nil. rewrite <- Hnil. apply Permutation_map.
      pose proof (sort_perm byScoreDesc scored rng1) as Hp. by rewrite Hso in Hp. }
    destruct (length (map video ranked) =? 0)%nat eqn:Hlen;
      [by apply length_zero_iff in Hlen|]. simpl.
    exists (map video ranked). split; [|done].
    apply standard_mode; [done|]. rewrite Hsc. simpl. by rewrite Hso.
  - assert (unwatchedPoolOf C I = []) as Hun'.
    { destruct (unwatchedPoolOf C I); [done|discriminate]. }
    pose proof (shuffle_perm (watchedPoolOf C I) rng) as Hp.
    destruct (shuffle (watchedPoolOf C I) rng) as [F rng1].
    simpl in Hp.
    destruct (length F =? 0)%nat eqn:Hlen.
    + apply length_zero_iff in Hlen. subst F.
      assert ((0 <? length C)%nat = true) as -> by (by apply length_pos_iff).
      simpl. pose proof (shuffle_perm C rng1) as Hp'.
      destruct (shuffle C rng1) as [F rng2]. simpl in Hp'.
      exists F. split; [|done]. apply safety_net; [done| |done].
      by apply Permutation_nil.
    + simpl. exists F. split; [|done]. apply recycle_mode; [done| |done].
      intros Hnil. rewrite Hnil in Hp. symmetry in Hp.
      apply Permutation_nil in Hp. subst F. discriminate.
Qed.

Lemma ranked_perm li pool rng :
  map video (sort byScoreDesc (map_st (scoreVideo li) pool rng).1
               (map_st (scoreVideo li) pool rng).2).1 ≡ₚ pool.
Proof.
  rewrite <- (scored_videos li pool rng) at 3.
  apply Permutation_map, sort_perm.
Qed.

Lemma filter_elem {A} (f : A → bool) (l : list A) x : x ∈ List.filter f l → x ∈ l.
Proof. rewrite !list_elem_of_In, filter_In. tauto. Qed.

Lemma assembled_elem li C I rng F v : Assembled li C I rng F → v ∈ F → v ∈ C.
Proof.
  intros [ranked _ ->|F' _ _ Hp|F' _ _ Hp] Hv.
  - rewrite ranked_perm in Hv. by eapply filter_elem.
  - rewrite Hp in Hv. by eapply filter_elem.
  - by rewrite Hp in Hv.
Qed.

Lemma assembled_nonempty li C I rng F :
  C ≠ [] → Assembled li C I rng F → F ≠ [].
Proof.
  intros HC [ranked Hun ->|F' _ Hw Hp|F' _ _ Hp] Hnil.
  - apply Hun. apply Permutation_nil. rewrite <- Hnil. apply ranked_perm.
  - apply Hw. apply Permutation_nil. by rewrite <- Hnil.
  - apply HC. apply Permutation_nil. by rewrite <- Hnil.
Qed.

(** C1. A non-empty corpus never yields an empty feed, whatever the
    interaction state (all ids disliked or watched included). *)
Theorem generateVideoFeed_nonempty li C I rng :
  C ≠ [] → generateVideoFeed li C I rng ≠ [].
Proof.
  intros HC. destruct (feed_assembled li C I rng HC) as (F & HF & ->).
  pose proof (assembled_nonempty _ _ _ _ _ HC HF) as Hne.
  destruct F as [|v rest]; [done|]. apply dedupe_head. set_solver.
Qed.

(** C2. The feed holds no two elements with the same id, and each of its
    ids is the id of an element of the corpus. *)
Theorem generateVideoFeed_distinct_subset li C I rng :
  NoDup (map id (generateVideoFeed li C I rng)) ∧
  ∀ i, i ∈ map id (generateVideoFeed li C I rng) → i ∈ map id C.
Proof.
  destruct C as [|c C'] eqn:HC.
  - unfold generateVideoFeed. simpl. split; [constructor|done].
  - rewrite <- HC. assert (C ≠ []) as Hne by (by rewrite HC).
    destruct (feed_assembled li C I rng Hne) as (F & HF & ->).
    split; [apply dedupe_NoDup|].
    intros i. rewrite !list_elem_of_fmap. intros (v & -> & Hv).
    exists v. split; [done|].
    eapply assembled_elem; [exact HF|]. by eapply dedupe_elem.
Qed.

Lemma generateVideoFeed_nonempty_witness :
  Samples.corpus3 ≠ [] ∧
  generateVideoFeed ["horror"] Samples.corpus3
    (Samples.interactionsOf ["v1"; "v2"; "v3"] []) Samples.draws ≠ [].
Proof.
  split; [discriminate|].
  apply (generateVideoFeed_nonempty ["horror"] Samples.corpus3). discriminate.
Defined.

Lemma over80_iff h : over80 h = true ↔ (8 # 10 < progress h)%Q.
Proof.
  unfold over80. rewrite negb_true_iff, <- not_true_iff_false, Qle_bool_iff.
  split; [apply Qnot_le_lt|apply Qlt_not_le].
Qed.

Lemma watchedIds_elem I i :
  i ∈ watchedIdsOf I ↔ ∃ h, h ∈ watchHistory I ∧ hid h = i ∧ (8 # 10 < progress h)%Q.
Proof.
  unfold watchedIdsOf. rewrite elem_of_list_to_set, list_elem_of_fmap.
  split.
  - intros (h & -> & Hh). apply list_elem_of_In, filter_In in Hh as [Hin Ho].
    exists h. by rewrite list_elem_of_In, <- over80_iff.
  - intros (h & Hin & <- & Hp). exists h. split; [done|].
    apply list_elem_of_In, filter_In. by rewrite <- list_elem_of_In, over80_iff.
Qed.

Lemma filter_all {A} (f : A → bool) (l : list A) :
  (∀ x, x ∈ l → f x = true) → List.filter f l = l.
Proof.
  induction l as [|x l IH]; intros Hf; simpl; [done|].
  rewrite Hf by left. f_equal. apply IH. intros y Hy. apply Hf. by right.
Qed.

Lemma filter_none {A} (f : A → bool) (l : list A) :
  (∀ x, x ∈ l → f x = false) → List.filter f l = [].
Proof.
  induction l as [|x l IH]; intros Hf; simpl; [done|].
  rewrite Hf by left. apply IH. intros y Hy. apply Hf. by right.
Qed.

Lemma filter_ids_NoDup (f : Video → bool) (l : list Video) :
  NoDup (map id l) → NoDup (map id (List.filter f l)).
Proof.
  induction l as [|x l IH]; simpl; [done|].
  inversion 1 as [|? ? Hx Hl]; subst.
  destruct (f x); simpl; [|by auto].
  constructor; [|by auto].
  rewrite list_elem_of_fmap. intros (v & Hid & Hv).
  apply Hx. rewrite Hid. apply list_elem_of_fmap_2. by eapply filter_elem.
Qed.

(** C7. When the ids of the corpus are pairwise distinct, every one of them
    has a history entry with progress above 0.8 and none is disliked, the
    feed is a permutation of the corpus. *)
Theorem generateVideoFeed_recycle li C I rng :
  NoDup (map id C) →
  (∀ v, v ∈ C → ∃ h, h ∈ watchHistory I ∧ hid h = id v ∧ (8 # 10 < progress h)%Q) →
  (∀ v, v ∈ C → id v ∉ dislikedIds I) →
  generateVideoFeed li C I rng ≡ₚ C.
Proof.
  intros Hnd Hwatched Hliked.
  destruct C as [|c C'] eqn:HC; [done|].
  rewrite <- HC in *. assert (C ≠ []) as Hne by (by rewrite HC).
  assert (∀ v, v ∈ C → bool_decide (id v ∈ watchedIdsOf I) = true) as Hw.
  { intros v Hv. apply bool_decide_eq_true_2, watchedIds_elem. auto. }
  assert (∀ v, v ∈ C → bool_decide (id v ∈ dislikedIdsOf I) = false) as Hd.
  { intros v Hv. apply bool_decide_eq_false_2. unfold dislikedIdsOf.
    rewrite elem_of_list_to_set. auto. }
  assert (unwatchedPoolOf C I = []) as Hun.
  { apply filter_none. intros v Hv. by rewrite Hw. }
  assert (watchedPoolOf C I = C) as Hwp.
  { apply filter_all. intros v Hv. by rewrite Hw, Hd. }
  destruct (feed_assembled li C I rng Hne) as (F & HF & ->).
  assert (F ≡ₚ C) as Hp.
  { destruct HF as [ranked Hun' _|F _ _ Hp|F _ _ Hp]; [done| |done].
    by rewrite Hp, Hwp. }
  rewrite dedupe_distinct; [done| |set_solver].
  by rewrite Hp.
Qed.

Lemma generateVideoFeed_recycle_witness :
  generateVideoFeed ["horror"] Samples.corpus3
    (Samples.interactionsOf []
       [Samples.seen "v1" (9 # 10); Samples.seen "v2" 1; Samples.seen "v3" (85 # 100)])
    Samples.draws ≡ₚ Samples.corpus3.
Proof.
  apply generateVideoFeed_recycle.
  - exact (bool_decide_unpack (NoDup (map id Samples.corpus3)) I).
  - intros v Hv. apply list_elem_of_In in Hv. simpl in Hv.
    destruct Hv as [<-|[<-|[<-|[]]]].
    + exists (Samples.seen "v1" (9 # 10)).
      split; [apply list_elem_of_In; simpl; tauto|split; reflexivity].
    + exists (Samples.seen "v2" 1).
      split; [apply list_elem_of_In; simpl; tauto|split; reflexivity].
    + exists (Samples.seen "v3" (85 # 100)).
      split; [apply list_elem_of_In; simpl; tauto|split; reflexivity].
  - intros v Hv. simpl. apply not_elem_of_nil.
Defined.

Lemma byScoreDesc_spec a b (s : Random) :
  rounded a → rounded b →
  Qle_bool (byScoreDesc a b s).1 0 = true ↔ descending a b.
Proof.
  intros [x Hx] [y Hy]. unfold byScoreDesc, descending. simpl.
  rewrite Qle_bool_iff, Hx, Hy. apply toDouble_difference.
Qed.

Lemma descending_total a b : descending a b ∨ descending b a.
Proof.
  unfold descending. destruct (Qlt_le_dec (score a) (score b)); [right|left]; lra.
Qed.

Lemma descending_trans a b c : descending a b → descending b c → descending a c.
Proof. unfold descending. intros. lra. Qed.

Lemma scoreAt_rounded li r v : ∃ x, scoreAt li r v = toDouble x.
Proof.
  unfold scoreAt.
  destruct (bool_decide (category v ∈ li)), (is_trending v); eauto.
Qed.

(** Rounding moves a score by less than the distance to the next boost level:
    the score stays within ten of its boost. *)
Lemma scoreAt_bounds li r v :
  (0 <= r < 1)%Q →
  (boost li v <= scoreAt li r v <= boost li v + 10)%Q.
Proof.
  intros Hr.
  assert (∀ (lo hi : Z) x, (-100 ≤ lo ≤ 100)%Z → (-100 ≤ hi ≤ 100)%Z →
            (inject_Z lo <= x <= inject_Z hi)%Q →
            (inject_Z lo <= toDouble x <= inject_Z hi)%Q) as Hstep.
  { intros lo hi x Hlo Hhi [Hl Hh].
    apply toDouble_mono in Hl, Hh.
    rewrite (toDouble_integer lo Hlo) in Hl. rewrite (toDouble_integer hi Hhi) in Hh.
    by split. }
  assert (0 <= toDouble (r * 10) <= 10)%Q as Hbase.
  { apply (Hstep 0 10)%Z; [lia..|]. unfold inject_Z. lra. }
  unfold scoreAt, boost.
  destruct (bool_decide (category v ∈ li)), (is_trending v).
  - assert (50 <= toDouble (toDouble (r * 10) + 50) <= 60)%Q as Hint
      by (apply (Hstep 50 60)%Z; [lia..|]; unfold inject_Z; lra).
    assert (70 <= toDouble (toDouble (toDouble (r * 10) + 50) + 20) <= 80)%Q
      by (apply (Hstep 70 80)%Z; [lia..|]; unfold inject_Z; lra).
    lra.
  - assert (50 <= toDouble (toDouble (r * 10) + 50) <= 60)%Q
      by (apply (Hstep 50 60)%Z; [lia..|]; unfold inject_Z; lra).
    lra.
  - assert (20 <= toDouble (toDouble (r * 10) + 20) <= 30)%Q
      by (apply (Hstep 20 30)%Z; [lia..|]; unfold inject_Z; lra).
    lra.
  - lra.
Qed.

Lemma scoreVideo_rng li v rng : (scoreVideo li v rng).2 = λ n, rng (S n).
Proof. done. Qed.

Lemma scored_lookup li pool rng k s :
  (map_st (scoreVideo li) pool rng).1 !! k = Some s →
  pool !! k = Some (video s) ∧ score s = scoreAt li (rng k) (video s).
Proof.
  revert rng k. induction pool as [|v rest IH]; intros rng k; [done|].
  rewrite map_st_cons, scoreVideo_rng.
  destruct k as [|k]; intros Hk.
  - assert (Some (scoreVideo li v rng).1 = Some s) as [= <-] by exact Hk.
    split; reflexivity.
  - exact (IH (λ n, rng (S n)) k Hk).
Qed.

Lemma scored_rounded li pool rng :
  Forall rounded (map_st (scoreVideo li) pool rng).1.
Proof.
  apply Forall_lookup. intros k s Hk. unfold rounded.
  apply scored_lookup in Hk as [_ ->]. apply scoreAt_rounded.
Qed.

Lemma ranked_sorted li pool rng :
  StronglySorted descending
    (sort byScoreDesc (map_st (scoreVideo li) pool rng).1
       (map_st (scoreVideo li) pool rng).2).1.
Proof.
  apply (sort_sorted_on byScoreDesc descending rounded
           descending_total descending_trans).
  - intros a b s Ha Hb. by apply byScoreDesc_spec.
  - apply scored_rounded.
Qed.

(** C6, as the code has it: in standard mode every item of the unwatched pool
    gets the score the double arithmetic makes of draw * 10, + 50 (interest),
    + 20 (trending), each step rounded to a double, which lies within ten of
    the item's boost; the pool is put in descending order of that score, and
    the closing filter then keeps the first item of each id; with pairwise
    distinct ids the feed is the sorted pool. *)
Theorem generateVideoFeed_standard li C I rng :
  unwatchedPoolOf C I ≠ [] →
  (∀ n, 0 <= rng n < 1)%Q →
  ∃ scored ranked : list Scored,
    map video scored = unwatchedPoolOf C I ∧
    (∀ k s, scored !! k = Some s →
       (0 <= 10 * rng k < 10)%Q ∧
       score s = scoreAt li (rng k) (video s) ∧
       (boost li (video s) <= score s <= boost li (video s) + 10)%Q) ∧
    ranked ≡ₚ scored ∧
    StronglySorted descending ranked ∧
    generateVideoFeed li C I rng = dedupe ∅ (map video ranked) ∧
    (NoDup (map id C) → generateVideoFeed li C I rng = map video ranked).
Proof.
  intros Hun Hrng.
  assert (C ≠ []) as HC by (intros ->; by apply Hun).
  destruct (feed_assembled li C I rng HC) as (F & HF & Hfeed).
  destruct HF as [ranked _ Hranked|F Hun' _ _|F Hun' _ _]; [|done..].
  exists (map_st (scoreVideo li) (unwatchedPoolOf C I) rng).1, ranked.
  assert (ranked ≡ₚ (map_st (scoreVideo li) (unwatchedPoolOf C I) rng).1) as Hp.
  { rewrite Hranked. apply sort_perm. }
  split; [apply scored_videos|].
  split.
  { intros k s Hk. apply scored_lookup in Hk as [_ Hs].
    split; [specialize (Hrng k); lra|]. split; [done|].
    rewrite Hs. by apply scoreAt_bounds. }
  split; [done|].
  split; [rewrite Hranked; by apply ranked_sorted|].
  split; [done|].
  intros Hnd. rewrite Hfeed. apply dedupe_distinct; [|set_solver].
  rewrite Hp, scored_videos. by apply filter_ids_NoDup.
Qed.

Lemma draws_unit n : (0 <= Samples.draws n < 1)%Q.
Proof.
  unfold Samples.draws. destruct (n `mod` 4) as [|[|[|?]]]; split; done.
Defined.

Lemma generateVideoFeed_standard_witness :
  ∃ scored ranked : list Scored,
    map video scored = unwatchedPoolOf Samples.corpus3 (Samples.interactionsOf ["v3"] []) ∧
    (∀ k s, scored !! k = Some s →
       (0 <= 10 * Samples.draws k < 10)%Q ∧
       score s = scoreAt ["horror"] (Samples.draws k) (video s) ∧
       (boost ["horror"] (video s) <= score s <= boost ["horror"] (video s) + 10)%Q) ∧
    ranked ≡ₚ scored ∧
    StronglySorted descending ranked ∧
    generateVideoFeed ["horror"] Samples.corpus3
      (Samples.interactionsOf ["v3"] []) Samples.draws = dedupe ∅ (map video ranked) ∧
    (NoDup (map id Samples.corpus3) →
     generateVideoFeed ["horror"] Samples.corpus3
       (Samples.interactionsOf ["v3"] []) Samples.draws = map video ranked).
Proof.
  apply generateVideoFeed_standard.
  - vm_compute. discriminate.
  - exact draws_unit.
Defined.

(** C6 as stated fails on a corpus that repeats an id: the unwatched pool has
    two items, the feed one. *)
Lemma generateVideoFeed_standard_counterexample :
  unwatchedPoolOf [Samples.clip "v1" "horror" false; Samples.clip "v1" "drama" true]
    (Samples.interactionsOf [] []) ≠ [] ∧
  ¬ (generateVideoFeed []
       [Samples.clip "v1" "horror" false; Samples.clip "v1" "drama" true]
       (Samples.interactionsOf [] []) Samples.draws
     ≡ₚ unwatchedPoolOf [Samples.clip "v1" "horror" false; Samples.clip "v1" "drama" true]
          (Samples.interactionsOf [] [])).
Proof.
  split; [vm_compute; discriminate|].
  intros Hp. apply Permutation_length in Hp. vm_compute in Hp. discriminate.
Qed.

(** The draws 0.5 and 0.5 + 2^-52 give two interest videos the same score 55:
    the sums 55 and 55 + 10 * 2^-52 round to the same double.  The stable sort
    then leaves the two items in the order of the corpus, although the exact
    sum of the second one is the larger. *)
Example near_tie_keeps_corpus_order :
  (Samples.nearTie 0%nat < Samples.nearTie 1%nat)%Q ∧
  scoreAt ["drama"] (Samples.nearTie 0%nat) (Samples.clip "a" "drama" false) = 55%Q ∧
  scoreAt ["drama"] (Samples.nearTie 1%nat) (Samples.clip "b" "drama" false) = 55%Q ∧
  map id (generateVideoFeed ["drama"]
            [Samples.clip "a" "drama" false; Samples.clip "b" "drama" false]
            (Samples.interactionsOf [] []) Samples.nearTie) = ["a"; "b"].
Proof. split; [done|]. vm_compute. done. Qed.

End FeedFacts.

(** ** The chunked prefetch cache *)

Module CacheFacts.
Import SmartCache AsyncTactics.

Lemma bufferVideoChunk_normal env url w : (bufferVideoChunk env url w).1 = Normal tt.
Proof.
  unfold bufferVideoChunk, caches_open, cache_match, fetch_range, response_blob,
    cache_put. run. branches; done.
Qed.

Lemma bufferVideoChunk_skip env url w :
  url = "" ∨ String.prefix "http" url = false ∨ is_Some (videoBuffer w !! url) →
  videoBuffer (bufferVideoChunk env url w).2 = videoBuffer w ∧
  fetches (bufferVideoChunk env url w).2 = fetches w.
Proof.
  intros Hskip.
  unfold bufferVideoChunk, caches_open, cache_match, fetch_range, response_blob,
    cache_put. run.
  destruct (String.eqb url "") eqn:Hempty; simpl; [done|].
  destruct (String.prefix "http" url) eqn:Hhttp; simpl; [|done].
  destruct Hskip as [->|[?|[e He]]]; [done..|].
  destruct (cachesOpen env (opens w)); simpl; [|done].
  by rewrite He.
Qed.

Lemma bufferVideoChunk_fetches env url w :
  (fetches (bufferVideoChunk env url w).2 ≤ S (fetches w))%nat.
Proof.
  unfold bufferVideoChunk, caches_open, cache_match, fetch_range, response_blob,
    cache_put. run. branches; lia.
Qed.

Lemma bufferVideoChunk_store env url w r b :
  String.prefix "http" url = true →
  videoBuffer w !! url = None →
  cachesOpen env (opens w) = true →
  fetch env (fetches w) url BUFFER_SIZE = Normal r →
  ok r || (status r =? 206)%Z = true →
  blob r = Some b →
  cachePut env (puts w) = true →
  videoBuffer (bufferVideoChunk env url w).2 !! url
  = Some {| entryStatus := 200; entryStatusText := "OK";
            entryContentType := orElse (contentType r) "video/mp4";
            entryContentLength := length b; entrySmartBuffer := "true";
            entryBody := b |}.
Proof.
  intros Hhttp Hnew Hopen Hfetch Hok Hblob Hput.
  assert (String.eqb url "" = false) as Hne by (by destruct url).
  unfold bufferVideoChunk, caches_open, cache_match, fetch_range, response_blob,
    cache_put. run.
  rewrite Hne, Hhttp. simpl. rewrite Hopen. simpl. rewrite Hnew. simpl.
  rewrite Hfetch. simpl.
  rewrite Hok, Hblob. simpl. rewrite Hput. simpl.
  apply lookup_insert_eq.
Qed.

Lemma bufferVideoChunk_refetch env url w :
  String.prefix "http" url = true →
  videoBuffer w !! url = None →
  cachesOpen env (opens w) = true →
  fetches (bufferVideoChunk env url w).2 = S (fetches w).
Proof.
  intros Hhttp Hnew Hopen.
  assert (String.eqb url "" = false) as Hne by (by destruct url).
  unfold bufferVideoChunk, caches_open, cache_match, fetch_range, response_blob,
    cache_put. run.
  rewrite Hne, Hhttp. simpl. rewrite Hopen. simpl. rewrite Hnew. simpl.
  branches; done.
Qed.

(** C8, as the code has it: a call never throws and issues at most one fetch;
    with an empty or non-http URL, or a URL already in the bucket, it changes
    nothing and fetches nothing; so once a call has left an entry for the URL,
    a second call keeps that entry and adds no fetch; the first call does
    leave an entry when the bucket opens, the fetch answers 2xx or 206 with a
    readable body, and the write succeeds; and when the first call has left no
    entry for an http URL and the bucket opens again, the second call fetches
    again. *)
Theorem bufferVideoChunk_idempotent env url w :
  let w1 := (bufferVideoChunk env url w).2 in
  let w2 := (bufferVideoChunk env url w1).2 in
  (bufferVideoChunk env url w).1 = Normal tt ∧
  (bufferVideoChunk env url w1).1 = Normal tt ∧
  (fetches w1 ≤ S (fetches w))%nat ∧
  (url = "" ∨ String.prefix "http" url = false ∨ is_Some (videoBuffer w !! url) →
   videoBuffer w1 = videoBuffer w ∧ fetches w1 = fetches w) ∧
  (is_Some (videoBuffer w1 !! url) →
   videoBuffer w2 = videoBuffer w1 ∧ fetches w2 = fetches w1 ∧
   (fetches w2 ≤ S (fetches w))%nat) ∧
  (∀ r b,
     String.prefix "http" url = true →
     videoBuffer w !! url = None →
     cachesOpen env (opens w) = true →
     fetch env (fetches w) url BUFFER_SIZE = Normal r →
     ok r || (status r =? 206)%Z = true →
     blob r = Some b →
     cachePut env (puts w) = true →
     is_Some (videoBuffer w1 !! url) ∧ fetches w1 = S (fetches w)) ∧
  (String.prefix "http" url = true →
   videoBuffer w1 !! url = None →
   cachesOpen env (opens w1) = true →
   fetches w2 = S (fetches w1)).
Proof.
  intros w1 w2. subst w1 w2.
  split; [apply bufferVideoChunk_normal|].
  split; [apply bufferVideoChunk_normal|].
  split; [apply bufferVideoChunk_fetches|].
  split; [apply bufferVideoChunk_skip|].
  split.
  - intros Hstored.
    destruct (bufferVideoChunk_skip env url (bufferVideoChunk env url w).2) as [Hb Hf];
      [by auto|].
    rewrite Hb, Hf. split; [done|]. split; [done|]. apply bufferVideoChunk_fetches.
  - split; [|apply bufferVideoChunk_refetch].
    intros r b Hhttp Hnew Hopen Hfetch Hok Hblob Hput.
    split.
    + erewrite bufferVideoChunk_store; eauto.
    + by apply bufferVideoChunk_refetch.
Qed.

Lemma bufferVideoChunk_idempotent_witness :
  let w1 := (bufferVideoChunk Samples.cdnUp Samples.mediaUrl Samples.emptyStore).2 in
  let w2 := (bufferVideoChunk Samples.cdnUp Samples.mediaUrl w1).2 in
  is_Some (videoBuffer w2 !! Samples.mediaUrl) ∧ fetches w2 = 1.
Proof.
  intros w1 w2.
  destruct (bufferVideoChunk_idempotent Samples.cdnUp Samples.mediaUrl Samples.emptyStore)
    as (_ & _ & _ & _ & Hsecond & Hfirst & _).
  destruct (Hfirst {| status := 206; contentType := Some "video/mp4";
                      blob := Some [Byte.x00; Byte.x01; Byte.x02] |}
              [Byte.x00; Byte.x01; Byte.x02]) as [Hstored Hone]; try reflexivity.
  destruct (Hsecond Hstored) as (Hbuf & Hfetch & _).
  subst w1 w2. rewrite Hbuf, Hfetch. split; [exact Hstored|exact Hone].
Defined.

(** C8 as stated fails when the first fetch does not succeed: two calls then
    fetch twice and leave no entry. *)
Lemma bufferVideoChunk_idempotent_counterexample :
  let w1 := (bufferVideoChunk Samples.cdnDown Samples.mediaUrl Samples.emptyStore).2 in
  let w2 := (bufferVideoChunk Samples.cdnDown Samples.mediaUrl w1).2 in
  videoBuffer w2 !! Samples.mediaUrl = None ∧ fetches w2 = 2 ∧
  ¬ (is_Some (videoBuffer w2 !! Samples.mediaUrl) ∧ (fetches w2 ≤ 1)%nat).
Proof.
  vm_compute. split; [done|]. split; [done|]. intros [_ Hle]. lia.
Qed.

End CacheFacts.

(** ** The narration key pool *)

Module KeyPoolFacts.
Import Js JsFacts ElevenLabs AsyncTactics.

(** *** Key resolution *)

Lemma getActiveKeyData_found env w keys i :
  api_config w = Some {| elevenlabs_keys := Some keys; elevenlabs_index := Some i |} →
  getDocOk env (reads w) = true →
  keys ≠ [] →
  (getActiveKeyData env w).1 =
  Normal (Some {| kd_key := keyAt keys (if (Z.of_nat (length keys) <=? i)%Z then 0 else i);
                  kd_index := if (Z.of_nat (length keys) <=? i)%Z then 0 else i;
                  kd_totalKeys := length keys; kd_allKeys := keys |}).
Proof.
  intros Hcfg Hread Hkeys. unfold getActiveKeyData, getDoc. run.
  rewrite Hread, Hcfg. simpl.
  destruct keys as [|k keys]; [done|]. reflexivity.
Qed.

(** C4, as the code has it: with a non-empty key list of length n and a stored
    index i >= 0, the key resolved is keys[i] when i < n and keys[0] when
    i >= n; the position is inside the list, and it is i mod n whenever
    i <= n. *)
Theorem getActiveKeyData_index env w keys i :
  api_config w = Some {| elevenlabs_keys := Some keys; elevenlabs_index := Some i |} →
  getDocOk env (reads w) = true →
  keys ≠ [] →
  (0 ≤ i)%Z →
  let pos := Z.to_nat (if (i <? Z.of_nat (length keys))%Z then i else 0) in
  (pos < length keys)%nat ∧
  resolvedKey env w = keys !! pos ∧
  is_Some (resolvedKey env w) ∧
  ((i ≤ Z.of_nat (length keys))%Z → pos = Z.to_nat (i `mod` Z.of_nat (length keys))).
Proof.
  intros Hcfg Hread Hkeys Hi pos.
  assert (0 < length keys)%nat as Hlen by (destruct keys; [done|simpl; lia]).
  assert (pos < length keys)%nat as Hpos.
  { subst pos. destruct (Z.ltb_spec i (Z.of_nat (length keys))); lia. }
  assert (resolvedKey env w = keys !! pos) as Hres.
  { unfold resolvedKey. rewrite (getActiveKeyData_found env w keys i) by done.
    simpl. subst pos. unfold keyAt.
    destruct (Z.leb_spec (Z.of_nat (length keys)) i), (Z.ltb_spec i (Z.of_nat (length keys)));
      try lia; simpl; [done|].
    destruct (Z.ltb_spec i 0); [lia|done]. }
  split; [done|]. split; [done|]. split.
  - rewrite Hres. by apply lookup_lt_is_Some_2.
  - intros Hle. subst pos.
    destruct (Z.ltb_spec i (Z.of_nat (length keys))).
    + by rewrite Z.mod_small by lia.
    + assert (i = Z.of_nat (length keys)) as -> by lia.
      by rewrite Z.mod_same by lia.
Qed.

Lemma getActiveKeyData_index_witness :
  resolvedKey (Samples.provider 200) (Samples.playing 3) = Some Samples.keyA ∧
  resolvedKey (Samples.provider 200) (Samples.playing 2) = Some Samples.keyC.
Proof.
  split.
  - destruct (getActiveKeyData_index (Samples.provider 200) (Samples.playing 3)
                [Samples.keyA; Samples.keyB; Samples.keyC] 3) as (_ & Hres & _);
      [reflexivity|reflexivity|discriminate|lia|exact Hres].
  - destruct (getActiveKeyData_index (Samples.provider 200) (Samples.playing 2)
                [Samples.keyA; Samples.keyB; Samples.keyC] 2) as (_ & Hres & _);
      [reflexivity|reflexivity|discriminate|lia|exact Hres].
Defined.

(** C4 as stated fails for a stored index beyond the list length: with three
    keys and index 4 the code resolves keys[0], not keys[4 mod 3]. *)
Lemma getActiveKeyData_index_counterexample :
  resolvedKey (Samples.provider 200) (Samples.playing 4) = Some Samples.keyA ∧
  [Samples.keyA; Samples.keyB; Samples.keyC] !! Z.to_nat (4 `mod` 3) = Some Samples.keyB ∧
  resolvedKey (Samples.provider 200) (Samples.playing 4)
  ≠ [Samples.keyA; Samples.keyB; Samples.keyC] !! Z.to_nat (4 `mod` 3).
Proof. vm_compute. split; [done|]. split; [done|]. discriminate. Qed.

(** *** Key statistics and ordering *)

Lemma checkKeyUsage_run env k w :
  ∃ st, (checkKeyUsage env k w).1 = Normal st ∧ key st = k ∧
        api_config (checkKeyUsage env k w).2 = api_config w ∧
        writes (checkKeyUsage env k w).2 = writes w.
Proof.
  unfold checkKeyUsage, fetch_subscription. run.
  destruct (subscription env (probes w) k) as [r|e]; simpl; [|by eexists].
  destruct (negb (httpOk (probeStatus r))); simpl; [by eexists|].
  destruct (json r); simpl; by eexists.
Qed.

Lemma collectStats_run env keys w :
  ∃ stats, (collectStats env keys w).1 = Normal stats ∧
           map key stats = List.filter (λ k, negb (String.length k <? 10)%nat) keys ∧
           api_config (collectStats env keys w).2 = api_config w ∧
           writes (collectStats env keys w).2 = writes w.
Proof.
  revert w. induction keys as [|k rest IH]; intros w; simpl.
  - by exists [].
  - destruct (String.length k <? 10)%nat; simpl; [apply IH|].
    run. destruct (checkKeyUsage_run env k w) as (st & Hst & Hk & Hc & Hw).
    destruct (checkKeyUsage env k w) as [c w1]. simpl in *. subst c.
    destruct (IH w1) as (stats & Hstats & Hkeys & Hc' & Hw').
    destruct (collectStats env rest w1) as [c w2]. simpl in *. subst c. simpl.
    exists (st :: stats). simpl. rewrite Hk, Hkeys, Hc', Hw'. done.
Qed.

Lemma inject_Z_nonpos z : Qle_bool (inject_Z z) 0 = true ↔ (z ≤ 0)%Z.
Proof. rewrite Qle_bool_iff. unfold Qle. simpl. lia. Qed.

Lemma byQuota_spec a b u : Qle_bool (byQuota a b u).1 0 = true ↔ quotaOrder a b.
Proof.
  unfold byQuota, quotaOrder.
  repeat case_bool_decide; simpl; rewrite inject_Z_nonpos; intuition lia.
Qed.

Lemma quotaOrder_total a b : quotaOrder a b ∨ quotaOrder b a.
Proof.
  unfold quotaOrder.
  destruct (decide (status a = active)), (decide (status b = active));
    destruct (Z.le_ge_cases (remaining a) (remaining b)); intuition lia.
Qed.

Lemma quotaOrder_trans a b c : quotaOrder a b → quotaOrder b c → quotaOrder a c.
Proof. unfold quotaOrder. intuition lia. Qed.

(** C5, as the code has it: keys shorter than ten characters are skipped; the
    result reorders the remaining keys so that every entry probed [active] is
    ahead of every other entry and [active] entries come in descending order
    of remaining quota; the stored configuration is not written.  With keys of
    sixteen characters, 110 and 1000 free characters for a and b and a failed
    probe for c, the order is [b, a, c]. *)
Theorem optimizeKeyOrder_sorted env keys w :
  (∃ probed stats,
     (collectStats env keys w).1 = Normal probed ∧
     stats ≡ₚ probed ∧
     (optimizeKeyOrder env keys w).1 = Normal (map key stats) ∧
     map key stats ≡ₚ List.filter (λ k, negb (String.length k <? 10)%nat) keys ∧
     (∀ i j a b, (i < j)%nat → stats !! i = Some a → stats !! j = Some b →
        (status b = active → status a = active) ∧
        (status a = active → status b = active → (remaining b ≤ remaining a)%Z))) ∧
  api_config (optimizeKeyOrder env keys w).2 = api_config w ∧
  writes (optimizeKeyOrder env keys w).2 = writes w ∧
  (optimizeKeyOrder (Samples.provider 200)
     [Samples.keyA; Samples.keyB; Samples.keyC] (Samples.playing 0)).1
  = Normal [Samples.keyB; Samples.keyA; Samples.keyC].
Proof.
  destruct (collectStats_run env keys w) as (probed & Hprobed & Hkeys & Hc & Hw).
  assert (optimizeKeyOrder env keys w =
          (Normal (map key (sort byQuota probed tt).1), (collectStats env keys w).2))
    as Hrun.
  { unfold optimizeKeyOrder, optimizeKeyStats. run.
    destruct (length keys =? 0)%nat eqn:Hlen; simpl.
    - apply length_zero_iff in Hlen. subst keys. simpl in Hprobed.
      by injection Hprobed as <-.
    - destruct (collectStats env keys w) as [c w1]. simpl in *. by subst c. }
  split; [|split; [|split]].
  - exists probed, (sort byQuota probed tt).1.
    split; [done|]. split; [apply sort_perm|]. split; [by rewrite Hrun|].
    split.
    + rewrite <- Hkeys. apply Permutation_map, sort_perm.
    + intros i j a b Hij Ha Hb.
      apply (sorted_lookup quotaOrder (sort byQuota probed tt).1 i j); [|done..].
      apply (sort_sorted byQuota quotaOrder quotaOrder_total quotaOrder_trans).
      apply byQuota_spec.
  - by rewrite Hrun.
  - by rewrite Hrun.
  - by vm_compute.
Qed.

(** C5 as stated fails on its own example: the keys "a", "b" and "c" are
    shorter than ten characters, so all three are skipped. *)
Lemma optimizeKeyOrder_sorted_counterexample :
  (optimizeKeyOrder Samples.shortKeyProvider ["a"; "b"; "c"] (Samples.playing 0)).1
  = Normal [] ∧
  (optimizeKeyOrder Samples.shortKeyProvider ["a"; "b"; "c"] (Samples.playing 0)).1
  ≠ Normal ["b"; "a"; "c"].
Proof. vm_compute. split; [done|discriminate]. Qed.

(** *** Narration *)

Ltac narration :=
  unfold stopCurrentNarrative, getActiveKeyData, getDoc, switchToNextKey,
    updateDoc_index, fetch_speech, response_audio, notifyListeners,
    setCurrentAudio in *;
  run.

(** One unfolding of the body, split on the retry guard; the inner call is
    left folded. *)
Ltac unfold_playNarrative rc :=
  rewrite (playNarrative_equation_1 _ _ rc);
  destruct (le_lt_dec rc 3);
  [rewrite playNarrative_clause_1_equation_1
  |rewrite playNarrative_clause_1_equation_2].

Ltac units := repeat match goal with u : unit |- _ => destruct u end.

Lemma playNarrative_over env text rc :
  (3 < rc)%nat → playNarrative env text rc = notifyListeners false.
Proof. intros Hrc. unfold_playNarrative rc; [lia|done]. Qed.

(** Whatever happens, the call completes normally. *)
Lemma playNarrative_normal env text rc w : (playNarrative env text rc w).1 = Normal tt.
Proof.
  unfold_playNarrative rc; [|done].
  narration. branches; units; done.
Qed.

Lemma trimStart_blank t : Forall (λ c, isWhiteSpace c = true) t → trimStart t = [].
Proof. induction 1 as [|c t Hc _ IH]; simpl; [done|]. by rewrite Hc. Qed.

Lemma trim_blank t : Forall (λ c, isWhiteSpace c = true) t → trim t = [].
Proof. intros Ht. unfold trim. by rewrite (trimStart_blank t Ht). Qed.

Lemma nothing_speakable text :
  text = [] ∨ Forall (λ c, isWhiteSpace c = true) text ∨ replaceDecor text = [] →
  (length text =? 0)%nat || (length (trim text) =? 0)%nat = true ∨
  (length (trim (replaceDecor text)) =? 0)%nat = true.
Proof.
  intros [->|[Hblank|Hdecor]].
  - by left.
  - left. rewrite (trim_blank text Hblank). apply orb_true_r.
  - right. by rewrite Hdecor.
Qed.

(** C10. With a text that is empty, blank, or made of stripped symbols only,
    the call completes normally without reading the configuration, without a
    narration request and without writing the rotation index; subscribers
    receive nothing but the [false] of cancelling a narration that was
    playing. *)
Theorem playNarrative_nothing_to_say env text rc w :
  (rc ≤ 3)%nat →
  text = [] ∨ Forall (λ c, isWhiteSpace c = true) text ∨ replaceDecor text = [] →
  let w' := (playNarrative env text rc w).2 in
  (playNarrative env text rc w).1 = Normal tt ∧
  reads w' = reads w ∧
  requests w' = requests w ∧
  writes w' = writes w ∧
  api_config w' = api_config w ∧
  delivered w' =
    delivered w ++ match currentAudio w with
                   | Some _ => map (λ l, (l, false)) (audioListeners w)
                   | None => []
                   end.
Proof.
  intros Hrc Htext w'. subst w'.
  split; [apply playNarrative_normal|].
  apply nothing_speakable in Htext.
  unfold_playNarrative rc; [|lia].
  narration.
  destruct (currentAudio w); simpl;
    (destruct ((length text =? 0)%nat || (length (trim text) =? 0)%nat) eqn:Hempty;
     simpl; [by rewrite ?app_nil_r|]);
    (destruct Htext as [? | ->]; [done|]); simpl; by rewrite ?app_nil_r.
Qed.

Lemma playNarrative_nothing_to_say_witness :
  let w' := (playNarrative (Samples.provider 200) Samples.hearts 0 (Samples.playing 1)).2 in
  reads w' = 0%nat ∧ requests w' = 0%nat ∧
  delivered w' = [(7, true); (8, true); (7, false); (8, false)]%nat.
Proof.
  destruct (playNarrative_nothing_to_say (Samples.provider 200) Samples.hearts 0
              (Samples.playing 1)) as (_ & Hreads & Hreq & _ & _ & Hlog).
  - lia.
  - right. right. reflexivity.
  - simpl. rewrite Hreads, Hreq, Hlog. done.
Defined.

Lemma rotation_not_ok st : isRotationStatus st = true → httpOk st = false.
Proof. unfold isRotationStatus, httpOk. lia. Qed.

(** C9. When the narration request is answered with a failure status other
    than 401, 402 and 429, the call completes normally, the stored
    configuration is left as it was (no write is attempted), and no further
    request is made. *)
Theorem playNarrative_other_failure env text rc w r :
  (∀ k t, textToSpeech env (requests w) k t = Normal r) →
  httpOk (speechStatus r) = false →
  isRotationStatus (speechStatus r) = false →
  let w' := (playNarrative env text rc w).2 in
  (playNarrative env text rc w).1 = Normal tt ∧
  api_config w' = api_config w ∧
  writes w' = writes w ∧
  (requests w' ≤ S (requests w))%nat.
Proof.
  intros Hresp Hfail Hother w'. subst w'.
  split; [apply playNarrative_normal|].
  unfold_playNarrative rc; [|by auto].
  narration.
  repeat first
    [ rewrite Hresp; simpl
    | rewrite Hfail; simpl
    | rewrite Hother; simpl
    | branch ];
    auto.
Qed.

Lemma playNarrative_other_failure_witness :
  let w' := (playNarrative (Samples.provider 500) Samples.hello 0 (Samples.playing 1)).2 in
  api_config w' = api_config (Samples.playing 1) ∧ writes w' = 0%nat ∧ (requests w' ≤ 1)%nat.
Proof.
  destruct (playNarrative_other_failure (Samples.provider 500) Samples.hello 0
              (Samples.playing 1)
              {| speechStatus := 500; audio := Some 0%nat |})
    as (_ & Hcfg & Hwrites & Hreq); [reflexivity..|].
  simpl. by rewrite Hcfg, Hwrites.
Defined.

Lemma lastDelivered_notify l log ls b :
  l ∈ ls → lastDelivered l (log ++ map (λ l, (l, b)) ls) = Some b.
Proof.
  intros Hl. unfold lastDelivered. rewrite List.filter_app, last_app.
  destruct (last (List.filter _ (map _ ls))) as [p|] eqn:Hp.
  - simpl. f_equal.
    apply last_Some_elem_of, list_elem_of_In, filter_In in Hp as [Hp _].
    apply list_elem_of_In, list_elem_of_fmap in Hp as (l' & -> & _). done.
  - exfalso. eapply is_Some_None. rewrite <- Hp. apply last_is_Some.
    intros Hnil.
    match type of Hnil with ?kept = [] => assert (In (l, b) kept) as Hin end.
    { apply filter_In. split; [|apply Nat.eqb_refl].
      apply list_elem_of_In. by apply (list_elem_of_fmap_2 (λ l, (l, b))). }
    by rewrite Hnil in Hin.
Qed.

Section Exhaustion.
Context (env : Env) (text : Text).
Hypothesis every_key_refused :
  ∀ n k t, ∃ r, textToSpeech env n k t = Normal r ∧
                isRotationStatus (speechStatus r) = true.

(** The answer of the next narration request, as the hypothesis fixes it. *)
Ltac refused :=
  match goal with
  | |- context [textToSpeech env ?n ?k ?t] =>
      let r := fresh "r" in
      let Hr := fresh "Hr" in
      let Hrot := fresh "Hrot" in
      destruct (every_key_refused n k t) as (r & Hr & Hrot);
      rewrite Hr; simpl;
      rewrite (rotation_not_ok _ Hrot), Hrot; simpl
  end.

Ltac retried IH rc :=
  match goal with
  | H : playNarrative env text (rc + 1) ?w2 = _ |- _ =>
      let Hn := fresh "Hn" in
      let Hnext := fresh "Hnext" in
      let Hquiet := fresh "Hquiet" in
      pose proof (playNarrative_normal env text (rc + 1) w2) as Hn;
      pose proof (IH (rc + 1)%nat w2 ltac:(lia)) as Hnext;
      rewrite H in Hn, Hnext; simpl in Hn, Hnext;
      first
        [ discriminate Hn
        | destruct Hnext as (? & ? & Hquiet);
          (split; [done|]); (split; [lia|]);
          intros; apply Hquiet; [lia|done] ]
  end.

Lemma playNarrative_attempts fuel :
  ∀ rc w, (rc + fuel = 4)%nat →
    let w' := (playNarrative env text rc w).2 in
    audioListeners w' = audioListeners w ∧
    (requests w' ≤ requests w + fuel)%nat ∧
    ((requests w' = requests w + fuel)%nat →
     ∀ l, l ∈ audioListeners w' → lastDelivered l (delivered w') = Some false).
Proof.
  induction fuel as [|fuel IH]; intros rc w Hfuel w'; subst w'.
  - rewrite playNarrative_over by lia. narration.
    split; [done|]. split; [lia|]. intros _ l Hl. by apply lastDelivered_notify.
  - unfold_playNarrative rc; [|lia].
    narration.
    repeat first [ refused | branch ];
      first [ retried IH rc | split; [done|]; split; [lia|]; intros; lia ].
Qed.
End Exhaustion.

(** C3. When every narration request is refused with 401, 402 or 429, a call
    makes at most four requests (the first attempt and three retries),
    completes normally, and, once all four have been refused, the value each
    subscriber received last is [false]. *)
Theorem playNarrative_exhausts env text w :
  (∀ n k t, ∃ r, textToSpeech env n k t = Normal r ∧
                 isRotationStatus (speechStatus r) = true) →
  let w' := (playNarrative env text 0 w).2 in
  (playNarrative env text 0 w).1 = Normal tt ∧
  audioListeners w' = audioListeners w ∧
  (requests w' ≤ requests w + 4)%nat ∧
  ((requests w' = requests w + 4)%nat →
   ∀ l, l ∈ audioListeners w' → lastDelivered l (delivered w') = Some false).
Proof.
  intros Hrefused w'. subst w'.
  split; [apply playNarrative_normal|].
  by apply (playNarrative_attempts env text Hrefused 4 0%nat w).
Qed.

Lemma playNarrative_exhausts_witness :
  let w' := (playNarrative (Samples.provider 429) Samples.hello 0 (Samples.playing 1)).2 in
  requests w' = 4%nat ∧
  lastDelivered 7%nat (delivered w') = Some false ∧
  lastDelivered 8%nat (delivered w') = Some false.
Proof.
  destruct (playNarrative_exhausts (Samples.provider 429) Samples.hello (Samples.playing 1))
    as (_ & Hls & _ & Hquiet).
  - intros n k t. eexists. split; reflexivity.
  - assert (requests (playNarrative (Samples.provider 429) Samples.hello 0
                        (Samples.playing 1)).2 = 4%nat) as Hreq
      by (vm_compute; reflexivity).
    split; [exact Hreq|].
    split; apply (Hquiet Hreq); rewrite Hls; apply list_elem_of_In; simpl; tauto.
Defined.

End KeyPoolFacts.

(** ** Sets in insertion order *)

Module JsSetFacts.
Import Js.

Section SetAdd.
Context {A : Type} `{EqDecision A}.
Implicit Types seen l : list A.

Lemma setAdd_elem seen l x : x ∈ setAdd seen l ↔ x ∈ seen ∨ x ∈ l.
Proof.
  revert seen. induction l as [|y rest IH]; intros seen; simpl.
  - rewrite elem_of_nil. tauto.
  - case_bool_decide; rewrite IH.
    + rewrite elem_of_cons. split; [tauto|]. intros [?|[->|?]]; auto.
    + rewrite elem_of_app, list_elem_of_singleton, elem_of_cons. tauto.
Qed.

Lemma setAdd_NoDup seen l : NoDup seen → NoDup (setAdd seen l).
Proof.
  revert seen. induction l as [|y rest IH]; intros seen Hnd; simpl; [done|].
  case_bool_decide; apply IH; [done|].
  apply NoDup_app. split; [done|]. split; [|apply NoDup_singleton].
  intros x Hx Hy. apply list_elem_of_singleton in Hy. by subst.
Qed.

Lemma setAdd_prefix seen l : seen `prefix_of` setAdd seen l.
Proof.
  revert seen. induction l as [|y rest IH]; intros seen; simpl; [done|].
  case_bool_decide; [apply IH|].
  etrans; [|apply IH]. by apply prefix_app_r.
Qed.

Lemma setAdd_app seen l1 l2 : setAdd seen (l1 ++ l2) = setAdd (setAdd seen l1) l2.
Proof.
  revert seen. induction l1 as [|y rest IH]; intros seen; simpl; [done|].
  case_bool_decide; apply IH.
Qed.

Lemma setAdd_known seen l : (∀ x, x ∈ l → x ∈ seen) → setAdd seen l = seen.
Proof.
  revert seen. induction l as [|y rest IH]; intros seen Hl; simpl; [done|].
  rewrite bool_decide_eq_true_2 by (apply Hl; left).
  apply IH. intros x Hx. apply Hl. by right.
Qed.

Lemma setAdd_fresh seen l :
  NoDup l → (∀ x, x ∈ l → x ∉ seen) → setAdd seen l = seen ++ l.
Proof.
  revert seen. induction l as [|y rest IH]; intros seen Hnd Hl; simpl.
  - by rewrite app_nil_r.
  - inversion Hnd as [|? ? Hy Hrest]; subst.
    rewrite bool_decide_eq_false_2 by (apply Hl; left).
    rewrite IH, <- app_assoc; [done..|].
    intros x Hx. rewrite elem_of_app, list_elem_of_singleton.
    intros [Hseen| ->]; [|done]. apply (Hl x); [by right|done].
Qed.

Lemma setAdd_length seen l : (length (setAdd seen l) ≤ length seen + length l)%nat.
Proof.
  revert seen. induction l as [|y rest IH]; intros seen; simpl; [lia|].
  case_bool_decide.
  - specialize (IH seen). lia.
  - specialize (IH (seen ++ [y])). rewrite length_app in IH. simpl in IH. lia.
Qed.

Lemma uniq_elem l x : x ∈ uniq l ↔ x ∈ l.
Proof. unfold uniq. rewrite setAdd_elem, elem_of_nil. tauto. Qed.

Lemma uniq_NoDup l : NoDup (uniq l).
Proof. apply setAdd_NoDup. constructor. Qed.

Lemma uniq_distinct l : NoDup l → uniq l = l.
Proof. intros Hnd. unfold uniq. rewrite setAdd_fresh; [done..|]. intros x _. apply not_elem_of_nil. Qed.

Lemma uniq_snoc_known l x : x ∈ l → uniq (l ++ [x]) = uniq l.
Proof.
  intros Hx. unfold uniq. rewrite setAdd_app. apply setAdd_known.
  intros y Hy. apply list_elem_of_singleton in Hy as ->. by apply setAdd_elem; right.
Qed.
End SetAdd.

End JsSetFacts.

(** ** More on the feed: what it holds back and how it is ordered *)

Module FeedOrder.
Import Js JsFacts SmartLogic FeedFacts.

Lemma pool_of_liked C I v :
  v ∈ C → id v ∉ dislikedIds I → v ∈ unwatchedPoolOf C I ∨ v ∈ watchedPoolOf C I.
Proof.
  intros Hv Hd.
  assert (bool_decide (id v ∈ dislikedIdsOf I) = false) as Hdis.
  { apply bool_decide_eq_false_2. unfold dislikedIdsOf. by rewrite elem_of_list_to_set. }
  destruct (bool_decide (id v ∈ watchedIdsOf I)) eqn:Hw; [right|left];
    apply list_elem_of_In, filter_In; (split; [by apply list_elem_of_In|]);
    by rewrite Hw, Hdis.
Qed.

Lemma pool_not_disliked C I v :
  v ∈ unwatchedPoolOf C I ∨ v ∈ watchedPoolOf C I → id v ∉ dislikedIds I.
Proof.
  intros [Hv|Hv]; apply list_elem_of_In, filter_In in Hv as [_ Hf];
    apply andb_true_iff in Hf as [_ Hf]; apply negb_true_iff, bool_decide_eq_false in Hf;
    unfold dislikedIdsOf in Hf; by rewrite elem_of_list_to_set in Hf.
Qed.

(** X1. As long as one video of the corpus is not disliked, no disliked
    video is in the feed. *)
Theorem generateVideoFeed_hides_disliked li C I rng :
  (∃ v, v ∈ C ∧ id v ∉ dislikedIds I) →
  ∀ v, v ∈ generateVideoFeed li C I rng → id v ∉ dislikedIds I.
Proof.
  intros (v0 & Hv0 & Hliked) v Hv.
  assert (C ≠ []) as HC by (intros ->; by apply elem_of_nil in Hv0).
  destruct (feed_assembled li C I rng HC) as (F & HF & Hfeed).
  rewrite Hfeed in Hv. apply dedupe_elem in Hv.
  apply (pool_not_disliked C).
  destruct HF as [ranked _ ->|F _ _ Hp|F Hun Hwa _].
  - left. by rewrite ranked_perm in Hv.
  - right. by rewrite Hp in Hv.
  - destruct (pool_of_liked C I v0 Hv0 Hliked) as [Hin|Hin];
      [rewrite Hun in Hin|rewrite Hwa in Hin]; by apply elem_of_nil in Hin.
Qed.

Lemma generateVideoFeed_hides_disliked_witness :
  Forall (λ v, id v ∉ ["v1"; "v3"])
    (generateVideoFeed ["horror"] Samples.corpus3
       (Samples.interactionsOf ["v1"; "v3"] [Samples.seen "v2" 1]) Samples.draws).
Proof.
  apply Forall_forall.
  apply (generateVideoFeed_hides_disliked ["horror"] Samples.corpus3
           (Samples.interactionsOf ["v1"; "v3"] [Samples.seen "v2" 1])).
  exists (Samples.clip "v2" "drama" true). split.
  - apply list_elem_of_In. simpl. tauto.
  - simpl. rewrite !elem_of_cons, elem_of_nil. intros [?|[?|[]]]; discriminate.
Defined.

Lemma boost_values li v :
  (boost li v == 0 ∨ boost li v == 20 ∨ boost li v == 50 ∨ boost li v == 70)%Q.
Proof.
  unfold boost. destruct (bool_decide (category v ∈ li)), (is_trending v);
    [do 3 right|do 2 right; left|right; left|left]; lra.
Qed.

(** A gap of at most ten points cannot reorder two boosts. *)
Lemma boost_gap li a b : (boost li b <= boost li a + 10)%Q → (boost li b <= boost li a)%Q.
Proof.
  destruct (boost_values li a) as [Ha|[Ha|[Ha|Ha]]],
           (boost_values li b) as [Hb|[Hb|[Hb|Hb]]]; lra.
Qed.

Lemma scored_draw li pool rng s :
  (∀ n, 0 <= rng n < 1)%Q →
  s ∈ (map_st (scoreVideo li) pool rng).1 →
  (boost li (video s) <= score s <= boost li (video s) + 10)%Q.
Proof.
  intros Hrng Hs. apply list_elem_of_lookup in Hs as [k Hk].
  apply scored_lookup in Hk as [_ ->]. by apply scoreAt_bounds.
Qed.

Lemma sorted_map {A B} (R : A → A → Prop) (R' : B → B → Prop) (f : A → B) l :
  (∀ a b, a ∈ l → b ∈ l → R a b → R' (f a) (f b)) →
  StronglySorted R l → StronglySorted R' (map f l).
Proof.
  intros HR Hs. induction Hs as [|a l Hs IH Hall]; simpl; [constructor|].
  constructor.
  - apply IH. intros x y Hx Hy. apply HR; by right.
  - rewrite Forall_forall in Hall. apply Forall_forall. intros y Hy.
    apply list_elem_of_fmap in Hy as (b & -> & Hb).
    apply HR; [left|by right|by apply Hall].
Qed.

Lemma dedupe_sorted (R : Video → Video → Prop) seen l :
  StronglySorted R l → StronglySorted R (dedupe seen l).
Proof.
  intros Hs. revert seen. induction Hs as [|a l Hs IH Hall]; intros seen; simpl.
  - constructor.
  - case_bool_decide; [apply IH|]. constructor; [apply IH|].
    rewrite Forall_forall in Hall. apply Forall_forall. intros y Hy.
    apply Hall. by eapply dedupe_elem.
Qed.

(** X2. In standard mode the random part of a score never outweighs a boost:
    along the feed the boost (50 for an interest category, 20 for trending)
    never increases, so every interest video comes before every other video,
    and within each of the two groups trending videos come first. *)
Theorem generateVideoFeed_boost_order li C I rng :
  unwatchedPoolOf C I ≠ [] →
  (∀ n, 0 <= rng n < 1)%Q →
  ∀ i j a b, (i < j)%nat →
    generateVideoFeed li C I rng !! i = Some a →
    generateVideoFeed li C I rng !! j = Some b →
    (boost li b <= boost li a)%Q.
Proof.
  intros Hun Hrng i j a b Hij Ha Hb.
  assert (C ≠ []) as HC by (intros ->; by apply Hun).
  destruct (feed_assembled li C I rng HC) as (F & HF & Hfeed).
  destruct HF as [ranked _ Hranked|F Hun' _ _|F Hun' _ _]; [|done..].
  rewrite Hfeed in Ha, Hb.
  apply (sorted_lookup (λ a b, boost li b <= boost li a)%Q
           (dedupe ∅ (map video ranked)) i j); [|done..].
  apply dedupe_sorted.
  assert (StronglySorted descending ranked) as Hsorted
    by (rewrite Hranked; by apply ranked_sorted).
  apply (sorted_map descending); [|done].
  intros x y Hx Hy Hxy. unfold descending in Hxy.
  assert (∀ s, s ∈ ranked →
            (boost li (video s) <= score s <= boost li (video s) + 10)%Q) as Hdraw.
  { intros s Hs. apply (scored_draw li (unwatchedPoolOf C I) rng); [done..|].
    rewrite Hranked in Hs. by rewrite sort_perm in Hs. }
  pose proof (Hdraw x Hx). pose proof (Hdraw y Hy).
  apply boost_gap. lra.
Qed.

Lemma generateVideoFeed_boost_order_witness :
  generateVideoFeed ["horror"] Samples.corpus3 (Samples.interactionsOf [] [])
    Samples.draws !! 0%nat = Some (Samples.clip "v1" "horror" false) ∧
  generateVideoFeed ["horror"] Samples.corpus3 (Samples.interactionsOf [] [])
    Samples.draws !! 1%nat = Some (Samples.clip "v2" "drama" true) ∧
  (boost ["horror"] (Samples.clip "v2" "drama" true)
   <= boost ["horror"] (Samples.clip "v1" "horror" false))%Q.
Proof.
  assert (generateVideoFeed ["horror"] Samples.corpus3
            (Samples.interactionsOf [] [])
            Samples.draws !! 0%nat = Some (Samples.clip "v1" "horror" false)) as H0
    by (vm_compute; reflexivity).
  assert (generateVideoFeed ["horror"] Samples.corpus3
            (Samples.interactionsOf [] [])
            Samples.draws !! 1%nat = Some (Samples.clip "v2" "drama" true)) as H1
    by (vm_compute; reflexivity).
  split; [exact H0|]. split; [exact H1|].
  apply (generateVideoFeed_boost_order ["horror"] Samples.corpus3
           (Samples.interactionsOf [] []) Samples.draws) with (i := 0%nat) (j := 1%nat).
  - vm_compute. discriminate.
  - exact draws_unit.
  - lia.
  - exact H0.
  - exact H1.
Defined.

End FeedOrder.

(** ** The updates of the interaction state *)

Module AppFacts.
Import Js JsSetFacts SmartLogic FeedFacts App.

Lemma without_elem id ids x : x ∈ without id ids ↔ x ∈ ids ∧ x ≠ id.
Proof.
  unfold without. rewrite !list_elem_of_In, filter_In, negb_true_iff, String.eqb_neq.
  tauto.
Qed.

Lemma without_absent id ids : id ∉ ids → without id ids = ids.
Proof.
  intros Hid. apply filter_all. intros x Hx.
  apply negb_true_iff, String.eqb_neq. by intros ->.
Qed.

Lemma without_twice id ids : without id (without id ids) = without id ids.
Proof. apply without_absent. rewrite without_elem. tauto. Qed.

Lemma history_elem id (hist : list WatchEntry) h :
  h ∈ List.filter (λ h, negb (String.eqb (hid h) id)) hist ↔ h ∈ hist ∧ hid h ≠ id.
Proof.
  rewrite !list_elem_of_In, filter_In, negb_true_iff, String.eqb_neq. tauto.
Qed.

Lemma history_cleared id (hist : list WatchEntry) :
  List.filter (λ h, String.eqb (hid h) id)
    (List.filter (λ h, negb (String.eqb (hid h) id)) hist) = [].
Proof.
  apply filter_none. intros h Hh. apply history_elem in Hh as [_ Hh].
  by apply String.eqb_neq.
Qed.

(** X3. After [onProgress(id, progress)] the history holds exactly one entry
    for the id, and whether the id counts as watched depends on this report
    alone (progress above 0.8); other ids keep their status.  A report above
    0.8 therefore takes the video out of the unwatched pool. *)
Theorem onProgress_last_report id p I :
  (id ∈ watchedIdsOf (onProgress id p I) ↔ (8 # 10 < p)%Q) ∧
  (∀ j, j ≠ id → (j ∈ watchedIdsOf (onProgress id p I) ↔ j ∈ watchedIdsOf I)) ∧
  (length (List.filter (λ h, String.eqb (hid h) id) (watchHistory (onProgress id p I)))
   = 1%nat) ∧
  ((8 # 10 < p)%Q →
   ∀ C v, v ∈ unwatchedPoolOf C (onProgress id p I) → SmartLogic.id v ≠ id).
Proof.
  assert (id ∈ watchedIdsOf (onProgress id p I) ↔ (8 # 10 < p)%Q) as Hid.
  { rewrite watchedIds_elem. simpl. split.
    - intros (h & Hh & Hhid & Hp). apply elem_of_app in Hh as [Hh|Hh].
      + apply history_elem in Hh as [_ Hne]. done.
      + apply list_elem_of_singleton in Hh as ->. done.
    - intros Hp. exists {| hid := id; progress := p |}.
      split; [|done]. apply elem_of_app. right. by apply list_elem_of_singleton. }
  split; [done|]. split; [|split].
  - intros j Hj. rewrite !watchedIds_elem. simpl. split.
    + intros (h & Hh & Hhid & Hp). apply elem_of_app in Hh as [Hh|Hh].
      * apply history_elem in Hh as [Hh _]. by exists h.
      * apply list_elem_of_singleton in Hh as ->. simpl in Hhid. congruence.
    + intros (h & Hh & Hhid & Hp). exists h. split; [|done].
      apply elem_of_app. left. apply history_elem. split; [done|congruence].
  - simpl. rewrite List.filter_app, history_cleared. simpl.
    by rewrite String.eqb_refl.
  - intros Hp C v Hv Heq. apply Hid in Hp.
    apply list_elem_of_In, filter_In in Hv as [_ Hf].
    apply andb_true_iff in Hf as [Hf _].
    apply negb_true_iff, bool_decide_eq_false in Hf. apply Hf. by rewrite Heq.
Qed.

(** X4. [handleLikeToggle] and [handleDislike] keep the liked and the
    disliked ids apart: when no id is in both lists before, none is after. *)
Theorem like_dislike_exclusive id p :
  (∀ x, x ∈ likedIds p → x ∉ dislikedIds p) →
  (∀ x, x ∈ likedIds (handleLikeToggle id p) → x ∉ dislikedIds (handleLikeToggle id p)) ∧
  (∀ x, x ∈ likedIds (handleDislike id p) → x ∉ dislikedIds (handleDislike id p)).
Proof.
  intros Hapart. split.
  - unfold handleLikeToggle. case_bool_decide; simpl; intros x Hx.
    + apply without_elem in Hx as [Hx _]. by apply Hapart.
    + rewrite without_elem. apply elem_of_app in Hx as [Hx|Hx].
      * intros [Hd _]. by apply (Hapart x).
      * apply list_elem_of_singleton in Hx as ->. tauto.
  - simpl. intros x Hx. apply without_elem in Hx as [Hx Hne].
    rewrite uniq_elem, elem_of_app, list_elem_of_singleton.
    intros [Hd|Hd]; [by apply (Hapart x)|done].
Qed.

Lemma like_dislike_exclusive_witness :
  "v2" ∈ likedIds (handleLikeToggle "v2" (Samples.interactionsOf ["v2"; "v3"] [])) ∧
  ("v2" ∉ dislikedIds (handleLikeToggle "v2" (Samples.interactionsOf ["v2"; "v3"] []))).
Proof.
  assert ("v2" ∈ likedIds (handleLikeToggle "v2"
                             (Samples.interactionsOf ["v2"; "v3"] []))) as Hliked
    by (apply list_elem_of_In; simpl; tauto).
  split; [exact Hliked|].
  apply (like_dislike_exclusive "v2" (Samples.interactionsOf ["v2"; "v3"] []));
    [|exact Hliked].
  simpl. intros x Hx. by apply elem_of_nil in Hx.
Defined.

(** X5. [handleDislike(id)] leaves the id disliked and not liked, keeps the
    earlier dislikes and adds no duplicate; disliking the same id again
    changes nothing. *)
Theorem handleDislike_idempotent id p :
  id ∈ dislikedIds (handleDislike id p) ∧
  (id ∉ likedIds (handleDislike id p)) ∧
  (∀ x, x ∈ dislikedIds p → x ∈ dislikedIds (handleDislike id p)) ∧
  (NoDup (dislikedIds p) → id ∈ dislikedIds p →
   dislikedIds (handleDislike id p) = dislikedIds p) ∧
  NoDup (dislikedIds (handleDislike id p)) ∧
  handleDislike id (handleDislike id p) = handleDislike id p.
Proof.
  split; [|split; [|split; [|split; [|split]]]]; simpl.
  - apply uniq_elem, elem_of_app. right. by apply list_elem_of_singleton.
  - rewrite without_elem. tauto.
  - intros x Hx. apply uniq_elem, elem_of_app. by left.
  - intros Hnd Hid. rewrite uniq_snoc_known by done. by apply uniq_distinct.
  - apply uniq_NoDup.
  - unfold handleDislike. simpl. f_equal; [apply without_twice|].
    rewrite uniq_snoc_known.
    + apply uniq_distinct, uniq_NoDup.
    + apply uniq_elem, elem_of_app. right. by apply list_elem_of_singleton.
Qed.

(** X6. [handleLikeToggle(id)] flips whether the id is liked and leaves the
    other ids as they were; liking removes the id from the dislikes, and
    unliking leaves the dislikes untouched.  [onSave(id)] flips the saved
    state in the same way. *)
Theorem toggles_flip id p :
  (id ∈ likedIds (handleLikeToggle id p) ↔ id ∉ likedIds p) ∧
  (∀ x, x ≠ id → (x ∈ likedIds (handleLikeToggle id p) ↔ x ∈ likedIds p)) ∧
  (id ∉ likedIds p → id ∉ dislikedIds (handleLikeToggle id p)) ∧
  (id ∈ likedIds p → dislikedIds (handleLikeToggle id p) = dislikedIds p) ∧
  (id ∈ savedIds (onSave id p) ↔ id ∉ savedIds p) ∧
  (∀ x, x ≠ id → (x ∈ savedIds (onSave id p) ↔ x ∈ savedIds p)).
Proof.
  unfold handleLikeToggle, onSave.
  split; [|split; [|split; [|split; [|split]]]]; simpl.
  - case_bool_decide; simpl.
    + rewrite without_elem. tauto.
    + rewrite elem_of_app, list_elem_of_singleton. tauto.
  - intros x Hx. case_bool_decide; simpl.
    + rewrite without_elem. tauto.
    + rewrite elem_of_app, list_elem_of_singleton. tauto.
  - intros Hid. rewrite bool_decide_eq_false_2 by done. simpl.
    rewrite without_elem. tauto.
  - intros Hid. by rewrite bool_decide_eq_true_2.
  - case_bool_decide.
    + rewrite without_elem. tauto.
    + rewrite elem_of_app, list_elem_of_singleton. tauto.
  - intros x Hx. case_bool_decide.
    + rewrite without_elem. tauto.
    + rewrite elem_of_app, list_elem_of_singleton. tauto.
Qed.

End AppFacts.

(** ** The interest profile *)

Module BrainFacts.
Import Js JsSetFacts SmartBrain AsyncTactics.

Ltac brain :=
  unfold saveInterest, getUserProfile, getTopInterests, updateUserProfile,
    setDoc_merge, getDoc_user, auth, storeInterests, setLocalInterests in *;
  run.

Ltac units := repeat match goal with u : unit |- _ => destruct u end.

Lemma saveInterest_local env interest w :
  localInterests (saveInterest env interest w).2 = localInterests w ∨
  (interest ≠ "" ∧ (interest ∉ localInterests w) ∧
   localInterests (saveInterest env interest w).2 = localInterests w ++ [interest]).
Proof.
  brain. destruct (String.eqb_spec interest ""); simpl; [by left|].
  case_bool_decide; simpl; [by left|].
  right. split; [done|]. split; [done|]. branches; done.
Qed.

Lemma saveInterest_member env interest w :
  interest ≠ "" → interest ∈ localInterests (saveInterest env interest w).2.
Proof.
  intros Hne. brain. destruct (String.eqb_spec interest ""); [done|]. simpl.
  case_bool_decide; simpl; [done|].
  assert (interest ∈ localInterests w ++ [interest]) as Hin
    by (apply elem_of_app; right; by apply list_elem_of_singleton).
  branches; done.
Qed.

(** X7. [saveInterest] only ever appends: the interests saved earlier stay in
    place, a non-empty interest is in the list afterwards (also when the
    storage or the profile update fails), the empty string is never added and
    no duplicate is introduced; saving the same interest again changes
    nothing at all.  The call fails only when the local-storage write does. *)
Theorem saveInterest_appends env interest w :
  localInterests w `prefix_of` localInterests (saveInterest env interest w).2 ∧
  (interest ≠ "" → interest ∈ localInterests (saveInterest env interest w).2) ∧
  (NoDup (localInterests w) → NoDup (localInterests (saveInterest env interest w).2)) ∧
  ("" ∉ localInterests w → "" ∉ localInterests (saveInterest env interest w).2) ∧
  saveInterest env interest (saveInterest env interest w).2
  = (Normal tt, (saveInterest env interest w).2) ∧
  ((saveInterest env interest w).1 = Normal tt ∨ setItemOk env (itemWrites w) = false).
Proof.
  pose proof (saveInterest_local env interest w) as Hlocal.
  split; [|split; [|split; [|split; [|split]]]].
  - destruct Hlocal as [->|(_ & _ & ->)]; [done|]. by apply prefix_app_r.
  - apply saveInterest_member.
  - intros Hnd. destruct Hlocal as [->|(_ & Hnew & ->)]; [done|].
    apply NoDup_app. split; [done|]. split; [|apply NoDup_singleton].
    intros x Hx Hx'. apply list_elem_of_singleton in Hx'. by subst.
  - intros Hempty. destruct Hlocal as [->|(Hne & _ & ->)]; [done|].
    rewrite elem_of_app, list_elem_of_singleton. intros [?|?]; [done|]. by subst.
  - destruct (String.eqb_spec interest "") as [->|Hne]; [done|].
    pose proof (saveInterest_member env interest w Hne) as Hin.
    generalize dependent (saveInterest env interest w).2. intros w' _ Hin.
    unfold saveInterest. rewrite (proj2 (String.eqb_neq _ _) Hne). run.
    by rewrite bool_decide_eq_true_2.
  - brain. destruct (String.eqb interest ""); simpl; [by left|].
    case_bool_decide; simpl; [by left|].
    destruct (setItemOk env (itemWrites w)); [left|by right].
    simpl. branches; units; done.
Qed.

Lemma getUserProfile_local env uid w :
  localInterests (getUserProfile env uid w).2 = localInterests w ∨
  ∃ data remote,
    getDocOk env (docReads w) = true ∧ users w !! uid = Some data ∧
    interests data = Some remote ∧
    localInterests (getUserProfile env uid w).2 = uniq (localInterests w ++ remote).
Proof.
  brain. destruct (getDocOk env (docReads w)) eqn:Hread; simpl; [|by left].
  destruct (users w !! uid) as [data|] eqn:Hdoc; simpl; [|by left].
  destruct (interests data) as [remote|] eqn:Hremote; simpl; [|by left].
  right. exists data, remote. repeat (split; [done|]).
  destruct (setItemOk env (itemWrites w)); done.
Qed.

(** X8. [getUserProfile] never throws and never writes the profile
    collection; it keeps every local interest and adds no duplicate; when the
    stored profile lists interests, all of them are local interests
    afterwards; and when the profile is missing or cannot be read, the answer
    is a profile made of the local interests, which stay as they were. *)
Theorem getUserProfile_merges env uid w :
  (∃ profile, (getUserProfile env uid w).1 = Normal profile) ∧
  users (getUserProfile env uid w).2 = users w ∧
  (∀ x, x ∈ localInterests w → x ∈ localInterests (getUserProfile env uid w).2) ∧
  (NoDup (localInterests w) → NoDup (localInterests (getUserProfile env uid w).2)) ∧
  (∀ data remote,
     getDocOk env (docReads w) = true → users w !! uid = Some data →
     interests data = Some remote →
     ∀ x, x ∈ remote → x ∈ localInterests (getUserProfile env uid w).2) ∧
  (getDocOk env (docReads w) = false ∨ users w !! uid = None →
   (getUserProfile env uid w).1
   = Normal {| name := None; gender := None; interests := Some (localInterests w);
               last_voice_limit_hit := None |} ∧
   localInterests (getUserProfile env uid w).2 = localInterests w).
Proof.
  pose proof (getUserProfile_local env uid w) as Hlocal.
  split; [|split; [|split; [|split; [|split]]]].
  - brain. branches; by eexists.
  - brain. branches; done.
  - intros x Hx. destruct Hlocal as [->|(data & remote & _ & _ & _ & ->)]; [done|].
    apply uniq_elem, elem_of_app. by left.
  - intros Hnd. destruct Hlocal as [->|(data & remote & _ & _ & _ & ->)]; [done|].
    apply uniq_NoDup.
  - intros data remote Hread Hdoc Hremote x Hx.
    brain. rewrite Hread. simpl. rewrite Hdoc. simpl. rewrite Hremote. simpl.
    assert (x ∈ uniq (localInterests w ++ remote)) as Hin
      by (apply uniq_elem, elem_of_app; by right).
    destruct (setItemOk env (itemWrites w)); done.
  - brain. intros [Hread|Hdoc].
    + by rewrite Hread.
    + destruct (getDocOk env (docReads w)); simpl; [|done]. by rewrite Hdoc.
Qed.

End BrainFacts.

(** ** More on the prefetch cache *)

Module CacheReads.
Import Js JsSetFacts SmartCache AsyncTactics.

Ltac cache :=
  unfold bufferVideoChunk, getVideoSrcFromCache, caches_open, cache_match,
    fetch_range, response_blob, cache_put in *;
  run.

Ltac images :=
  unfold bufferImage, image_caches_open, image_fetch, image_cache_put in *;
  run.

(** X9. [getVideoSrcFromCache] only reads: it never throws, fetches nothing
    and leaves the bucket as it is.  It answers null for a URL that is not in
    the bucket and the stored bytes for one that is; in particular, right
    after a [bufferVideoChunk] that fetched and stored the chunk, it serves
    the bytes that were fetched. *)
Theorem getVideoSrcFromCache_round_trip env url w :
  (∃ src, (getVideoSrcFromCache env url w).1 = Normal src) ∧
  videoBuffer (getVideoSrcFromCache env url w).2 = videoBuffer w ∧
  fetches (getVideoSrcFromCache env url w).2 = fetches w ∧
  (videoBuffer w !! url = None → (getVideoSrcFromCache env url w).1 = Normal None) ∧
  (∀ e, url ≠ "" → videoBuffer w !! url = Some e → cachesOpen env (opens w) = true →
     (getVideoSrcFromCache env url w).1 = Normal (Some (entryBody e))) ∧
  (∀ r b,
     String.prefix "http" url = true →
     videoBuffer w !! url = None →
     cachesOpen env (opens w) = true →
     fetch env (fetches w) url BUFFER_SIZE = Normal r →
     ok r || (status r =? 206)%Z = true →
     blob r = Some b →
     cachePut env (puts w) = true →
     cachesOpen env (S (opens w)) = true →
     (getVideoSrcFromCache env url (bufferVideoChunk env url w).2).1 = Normal (Some b)).
Proof.
  split; [|split; [|split; [|split; [|split]]]].
  - cache. branches; by eexists.
  - cache. branches; done.
  - cache. branches; done.
  - intros Hnone. cache. destruct (String.eqb url ""); simpl; [done|].
    destruct (cachesOpen env (opens w)); simpl; [|done]. by rewrite Hnone.
  - intros e Hne Hsome Hopen. cache.
    rewrite (proj2 (String.eqb_neq _ _) Hne), Hopen. simpl. by rewrite Hsome.
  - intros r b Hhttp Hnew Hopen Hfetch Hok Hblob Hput Hopen'.
    assert (String.eqb url "" = false) as Hne by (by destruct url).
    cache. rewrite Hne, Hhttp. simpl. rewrite Hopen. simpl. rewrite Hnew. simpl.
    rewrite Hfetch. simpl. rewrite Hok, Hblob. simpl. rewrite Hput. simpl.
    rewrite Hopen'. simpl. by rewrite lookup_insert_eq.
Qed.

Lemma getVideoSrcFromCache_round_trip_witness :
  (getVideoSrcFromCache Samples.cdnUp Samples.mediaUrl
     (bufferVideoChunk Samples.cdnUp Samples.mediaUrl Samples.emptyStore).2).1
  = Normal (Some [Byte.x00; Byte.x01; Byte.x02]).
Proof.
  destruct (getVideoSrcFromCache_round_trip Samples.cdnUp Samples.mediaUrl
              Samples.emptyStore) as (_ & _ & _ & _ & _ & Hserved).
  apply (Hserved {| status := 206; contentType := Some "video/mp4";
                    blob := Some [Byte.x00; Byte.x01; Byte.x02] |});
    reflexivity.
Defined.

(** X10. [bufferVideoChunk] never removes or replaces what the bucket holds:
    every entry present before the call is present, unchanged, after it, and
    the entries of other URLs are exactly those from before. *)
Theorem bufferVideoChunk_keeps_entries env url w :
  (∀ u e, videoBuffer w !! u = Some e →
          videoBuffer (bufferVideoChunk env url w).2 !! u = Some e) ∧
  (∀ u, u ≠ url →
        videoBuffer (bufferVideoChunk env url w).2 !! u = videoBuffer w !! u).
Proof.
  split.
  - intros u e Hu. cache. branches; try done.
    destruct (decide (u = url)) as [->|Hne]; [congruence|].
    by rewrite lookup_insert_ne.
  - intros u Hne. cache. branches; try done. by rewrite lookup_insert_ne.
Qed.

(** X11. Whatever [bufferVideoChunk] stores is a rewritten response: status
    200 "OK", the marker header, and a content length equal to the size of
    the stored body.  A bucket whose entries all have this form keeps it. A
    response with a status outside 200..299 is never stored. *)
Theorem bufferVideoChunk_entry_form env url w :
  ((∀ u e, videoBuffer w !! u = Some e →
      entryStatus e = 200%Z ∧ entryStatusText e = "OK" ∧ entrySmartBuffer e = "true" ∧
      entryContentLength e = length (entryBody e)) →
   ∀ u e, videoBuffer (bufferVideoChunk env url w).2 !! u = Some e →
      entryStatus e = 200%Z ∧ entryStatusText e = "OK" ∧ entrySmartBuffer e = "true" ∧
      entryContentLength e = length (entryBody e)) ∧
  (∀ r, fetch env (fetches w) url BUFFER_SIZE = Normal r → ok r = false →
        videoBuffer (bufferVideoChunk env url w).2 = videoBuffer w).
Proof.
  split.
  - intros Hform u e. cache. branches; try apply Hform.
    destruct (decide (url = u)) as [->|Hne].
    + rewrite lookup_insert_eq. by intros [= <-].
    + rewrite lookup_insert_ne by done. apply Hform.
  - intros r Hfetch Hbad.
    assert (ok r || (status r =? 206)%Z = false) as Hno.
    { rewrite Hbad. simpl. unfold ok in Hbad. lia. }
    cache. destruct (String.eqb url "" || negb (String.prefix "http" url)); simpl; [done|].
    destruct (cachesOpen env (opens w)); simpl; [|done].
    destruct (videoBuffer w !! url); simpl; [done|].
    rewrite Hfetch. simpl. by rewrite Hno.
Qed.

Lemma bufferVideoChunk_entry_form_witness :
  ∃ e, videoBuffer (bufferVideoChunk Samples.cdnUp Samples.mediaUrl
                      Samples.emptyStore).2 !! Samples.mediaUrl = Some e ∧
       entryStatus e = 200%Z ∧ entryStatusText e = "OK" ∧ entrySmartBuffer e = "true" ∧
       entryContentLength e = length (entryBody e).
Proof.
  assert (is_Some (videoBuffer (bufferVideoChunk Samples.cdnUp Samples.mediaUrl
                                  Samples.emptyStore).2 !! Samples.mediaUrl))
    as [e He] by (vm_compute; eauto).
  exists e. split; [exact He|].
  apply (proj1 (bufferVideoChunk_entry_form Samples.cdnUp Samples.mediaUrl
                  Samples.emptyStore)) with (u := Samples.mediaUrl); [|exact He].
  intros u e' Hu. simpl in Hu. by rewrite lookup_empty in Hu.
Defined.

(** X12. [bufferImage] never throws and fetches at most once; with an empty
    or non-http URL, or an image already in the bucket, it changes nothing
    and fetches nothing; it never removes or replaces an image; and when the
    bucket opens, the fetch answers 2xx and the write succeeds, the image is
    stored as it was fetched. *)
Theorem bufferImage_stores env url w :
  (bufferImage env url w).1 = Normal tt ∧
  (imageFetches (bufferImage env url w).2 ≤ S (imageFetches w))%nat ∧
  (url = "" ∨ String.prefix "http" url = false ∨ is_Some (imageCache w !! url) →
   imageCache (bufferImage env url w).2 = imageCache w ∧
   imageFetches (bufferImage env url w).2 = imageFetches w) ∧
  (∀ u r, imageCache w !! u = Some r →
          imageCache (bufferImage env url w).2 !! u = Some r) ∧
  (∀ r, String.prefix "http" url = true →
        imageCache w !! url = None →
        imageCachesOpen env (imageOpens w) = true →
        imageFetch env (imageFetches w) url = Normal r →
        ok r = true →
        imageCachePut env (imagePuts w) = true →
        imageCache (bufferImage env url w).2 !! url = Some r).
Proof.
  split; [|split; [|split; [|split]]].
  - images. branches; done.
  - images. branches; lia.
  - intros Hskip. images.
    destruct (String.eqb url "") eqn:Hempty; simpl; [done|].
    destruct (String.prefix "http" url) eqn:Hhttp; simpl; [|done].
    destruct Hskip as [->|[?|[r Hr]]]; [done..|].
    destruct (imageCachesOpen env (imageOpens w)); simpl; [|done]. by rewrite Hr.
  - intros u r Hu. images. branches; try done.
    destruct (decide (u = url)) as [->|Hne]; [congruence|].
    by rewrite lookup_insert_ne.
  - intros r Hhttp Hnew Hopen Hfetch Hok Hput.
    assert (String.eqb url "" = false) as Hne by (by destruct url).
    images. rewrite Hne, Hhttp. simpl. rewrite Hopen. simpl. rewrite Hnew. simpl.
    rewrite Hfetch. simpl. rewrite Hok. simpl. rewrite Hput. simpl.
    apply lookup_insert_eq.
Qed.

Lemma trendingFrom_elem k videos i :
  i ∈ trendingFrom k videos →
  (k ≤ i)%nat ∧ ∃ v, videos !! (i - k)%nat = Some v ∧ SmartLogic.is_trending v = true.
Proof.
  revert k. induction videos as [|v rest IH]; intros k; simpl.
  - by rewrite elem_of_nil.
  - destruct (SmartLogic.is_trending v) eqn:Hv.
    + rewrite elem_of_cons. intros [->|Hi].
      * split; [lia|]. exists v. by rewrite Nat.sub_diag.
      * apply IH in Hi as (Hle & v' & Hv' & Ht). split; [lia|]. exists v'.
        replace (i - k)%nat with (S (i - S k)) by lia. done.
    + intros Hi. apply IH in Hi as (Hle & v' & Hv' & Ht). split; [lia|]. exists v'.
      replace (i - k)%nat with (S (i - S k)) by lia. done.
Qed.

Lemma callsFor_length v : (length (callsFor v) ≤ 2)%nat.
Proof.
  unfold callsFor. rewrite length_app.
  destruct (String.eqb (SmartLogic.video_url v) ""), (SmartLogic.poster_url v) as [u|];
    simpl; try destruct (String.eqb u ""); simpl; lia.
Qed.

(** X13. [initSmartBuffering] queues at most eight videos and never the same
    array element twice; each of the first five videos is queued, and every
    queued video is one of the first five or a trending one.  It starts at
    most sixteen buffering calls, none for an empty list. *)
Theorem initSmartBuffering_queue videos :
  (length (seedQueue videos) ≤ 8)%nat ∧
  NoDup (seedQueue videos) ∧
  (∀ i, (i < 5)%nat → (i < length videos)%nat → i ∈ seedQueue videos) ∧
  (∀ i, i ∈ seedQueue videos →
        ∃ v, videos !! i = Some v ∧ ((i < 5)%nat ∨ SmartLogic.is_trending v = true)) ∧
  (length (initSmartBuffering videos) ≤ 16)%nat ∧
  (videos = [] → initSmartBuffering videos = []).
Proof.
  assert (length (seedQueue videos) ≤ 8)%nat as Hlen.
  { unfold seedQueue, uniq.
    etrans; [apply setAdd_length|]. simpl.
    rewrite length_app, !length_take. lia. }
  split; [done|]. split; [apply uniq_NoDup|]. split; [|split; [|split]].
  - intros i H5 Hn. unfold seedQueue. apply uniq_elem, elem_of_app. right.
    rewrite take_seq. apply elem_of_seq. lia.
  - intros i Hi. unfold seedQueue in Hi. apply uniq_elem, elem_of_app in Hi as [Hi|Hi].
    + apply subseteq_take, trendingFrom_elem in Hi as (_ & v & Hv & Ht).
      rewrite Nat.sub_0_r in Hv. eauto.
    + rewrite take_seq in Hi. apply elem_of_seq in Hi.
      destruct (lookup_lt_is_Some_2 videos i) as [v Hv]; [lia|].
      exists v. split; [done|]. left. lia.
  - unfold initSmartBuffering. destruct (length videos =? 0)%nat; simpl; [lia|].
    assert (∀ q : list nat,
              (length (flat_map (λ i, match videos !! i with
                                      | Some v => callsFor v
                                      | None => []
                                      end) q) ≤ 2 * length q)%nat) as Hcalls.
    { induction q as [|i q IH]; simpl; [lia|]. rewrite length_app.
      destruct (videos !! i) as [v|]; simpl; [pose proof (callsFor_length v)|]; lia. }
    specialize (Hcalls (seedQueue videos)). lia.
  - by intros ->.
Qed.

End CacheReads.

(** ** More on the narration key pool *)

Module KeyPoolMore.
Import Js JsFacts ElevenLabs AsyncTactics KeyPoolFacts.

Ltac units := repeat match goal with u : unit |- _ => destruct u end.

(** X14. [checkKeyUsage] always answers with statistics for the key it was
    given: it never throws, makes exactly one probe and leaves the stored
    configuration alone.  The status is [active] exactly when more than 100
    characters remain; an [error] answer carries the values 0, 0 and -1; any
    other answer has remaining = limit - used. *)
Theorem checkKeyUsage_stats env apiKey w :
  ∃ st, (checkKeyUsage env apiKey w).1 = Normal st ∧
        key st = apiKey ∧
        (status st = active ↔ (100 < remaining st)%Z) ∧
        (status st = error → used st = 0%Z ∧ limit st = 0%Z ∧ remaining st = (-1)%Z) ∧
        (status st ≠ error → remaining st = (limit st - used st)%Z) ∧
        probes (checkKeyUsage env apiKey w).2 = S (probes w) ∧
        api_config (checkKeyUsage env apiKey w).2 = api_config w.
Proof.
  unfold checkKeyUsage, fetch_subscription, errorStats. run.
  destruct (subscription env (probes w) apiKey) as [r|e]; simpl.
  - destruct (negb (httpOk (probeStatus r))); simpl.
    + eexists. split; [done|]. simpl. repeat split; try done; lia.
    + destruct (json r) as [d|]; simpl.
      * eexists. split; [done|]. simpl.
        destruct (Z.ltb_spec 100 (default 0%Z (character_limit d)
                                    - default 0%Z (character_count d)));
          repeat split; try done; try lia.
      * eexists. split; [done|]. simpl. repeat split; try done; lia.
  - eexists. split; [done|]. simpl. repeat split; try done; lia.
Qed.

Lemma checkKeyUsage_probe env apiKey w :
  probes (checkKeyUsage env apiKey w).2 = S (probes w).
Proof. unfold checkKeyUsage, fetch_subscription. run. branches; done. Qed.

Lemma collectStats_probes env keys w :
  probes (collectStats env keys w).2
  = (probes w + length (List.filter (λ k, negb (String.length k <? 10)%nat) keys))%nat.
Proof.
  revert w. induction keys as [|k rest IH]; intros w; simpl; [lia|].
  destruct (String.length k <? 10)%nat; simpl; [apply IH|].
  run. destruct (checkKeyUsage_run env k w) as (st & Hst & _).
  pose proof (checkKeyUsage_probe env k w) as Hp.
  destruct (checkKeyUsage env k w) as [c w1]. simpl in *. subst c.
  specialize (IH w1). destruct (collectStats_run env rest w1) as (stats & Hstats & _).
  destruct (collectStats env rest w1) as [c w2]. simpl in *. subst c. simpl. lia.
Qed.

Lemma checkKeyUsage_answer env apiKey w :
  (checkKeyUsage env apiKey w).1
  = Normal (statsOf apiKey (subscription env (probes w) apiKey)).
Proof.
  unfold checkKeyUsage, fetch_subscription, statsOf. run.
  destruct (subscription env (probes w) apiKey) as [r|e]; simpl; [|done].
  destruct (negb (httpOk (probeStatus r))); simpl; [done|].
  by destruct (json r).
Qed.

(** The loop sends its requests in the order of the list: request number [j]
    of the loop carries the [j]-th key of at least ten characters. *)
Lemma collectStats_answers env keys w :
  (collectStats env keys w).1
  = Normal (imap (λ j k, statsOf k (subscription env (probes w + j) k))
              (List.filter (λ k, negb (String.length k <? 10)%nat) keys)).
Proof.
  revert w. induction keys as [|k rest IH]; intros w; simpl; [done|].
  destruct (String.length k <? 10)%nat; simpl; [apply IH|].
  run. pose proof (checkKeyUsage_answer env k w) as Hst.
  pose proof (checkKeyUsage_probe env k w) as Hp.
  destruct (checkKeyUsage env k w) as [c w1]. simpl in *. subst c.
  specialize (IH w1). destruct (collectStats env rest w1) as [c w2]. simpl in *.
  subst c. simpl. rewrite Nat.add_0_r. do 2 f_equal.
  apply imap_ext. intros j x _. simpl. rewrite Hp. by rewrite Nat.add_succ_r.
Qed.

(** X15. [optimizeKeyOrder] never throws.  Its requests go, in the order of
    the input, to the keys of at least ten characters: request number [j]
    carries the [j]-th such key, so each of them is probed exactly once and
    no other key is.  What is sorted are the statistics of these answers, as
    many keys are returned as were probed, and for an empty list the result is
    the empty list without a probe. *)
Theorem optimizeKeyOrder_probes env keys w :
  ∃ valid stats out,
    valid = List.filter (λ k, negb (String.length k <? 10)%nat) keys ∧
    stats = imap (λ j k, statsOf k (subscription env (probes w + j) k)) valid ∧
    (collectStats env keys w).1 = Normal stats ∧
    out = map key (sort byQuota stats tt).1 ∧
    (optimizeKeyOrder env keys w).1 = Normal out ∧
    out ≡ₚ valid ∧
    length out = length valid ∧
    (length out ≤ length keys)%nat ∧
    probes (optimizeKeyOrder env keys w).2 = (probes w + length out)%nat ∧
    (keys = [] → out = []).
Proof.
  pose proof (collectStats_answers env keys w) as Hprobed.
  destruct (collectStats_run env keys w) as (probed & Hprobed' & Hkeys & _).
  rewrite Hprobed in Hprobed'. injection Hprobed' as <-.
  pose proof (collectStats_probes env keys w) as Hcount.
  set (valid := List.filter (λ k, negb (String.length k <? 10)%nat) keys) in *.
  set (stats := imap (λ j k, statsOf k (subscription env (probes w + j) k)) valid) in *.
  assert (optimizeKeyOrder env keys w =
          (Normal (map key (sort byQuota stats tt).1), (collectStats env keys w).2))
    as Hrun.
  { unfold optimizeKeyOrder, optimizeKeyStats. run.
    destruct (length keys =? 0)%nat eqn:Hlen; simpl.
    - apply length_zero_iff in Hlen. by subst keys.
    - destruct (collectStats env keys w) as [c w1]. simpl in *. by subst c. }
  assert (map key (sort byQuota stats tt).1 ≡ₚ valid) as Hperm.
  { rewrite <- Hkeys. apply Permutation_map, sort_perm. }
  exists valid, stats, (map key (sort byQuota stats tt).1).
  split; [done|]. split; [done|]. split; [done|]. split; [done|].
  split; [by rewrite Hrun|]. split; [done|].
  split; [by apply Permutation_length|].
  split; [|split].
  - rewrite (Permutation_length Hperm). apply List.filter_length_le.
  - rewrite Hrun, (Permutation_length Hperm). simpl. exact Hcount.
  - intros Hnil. apply Permutation_nil. rewrite Hperm. subst valid. by rewrite Hnil.
Qed.

Lemma receivedBy_notify_other l log ls b :
  l ∉ ls → receivedBy l (log ++ map (λ x, (x, b)) ls) = receivedBy l log.
Proof.
  intros Hl. unfold receivedBy. rewrite List.filter_app, map_app.
  rewrite (FeedFacts.filter_none _ (map _ ls)); [by rewrite app_nil_r|].
  intros p Hp. apply list_elem_of_fmap in Hp as (x & -> & Hx). simpl.
  apply Nat.eqb_neq. by intros ->.
Qed.

(** X16. A subscribed listener is handed every later notification.  After
    the function returned by [subscribeToAudioState] has run, the listener is
    registered no more (however often it had subscribed) and a notification
    hands it nothing, while the other listeners still get the value. *)
Theorem unsubscribe_silences l b w :
  lastDelivered l (delivered (notifyListeners b (subscribeToAudioState l w).2).2)
  = Some b ∧
  (l ∉ audioListeners (unsubscribe l w).2) ∧
  receivedBy l (delivered (notifyListeners b (unsubscribe l w).2).2)
  = receivedBy l (delivered w) ∧
  (∀ l', l' ≠ l → l' ∈ audioListeners w →
     lastDelivered l' (delivered (notifyListeners b (unsubscribe l w).2).2) = Some b).
Proof.
  assert (∀ x, x ∈ List.filter (λ y, negb (y =? l)%nat) (audioListeners w)
               ↔ x ∈ audioListeners w ∧ x ≠ l) as Hkept.
  { intros x. rewrite !list_elem_of_In, filter_In, negb_true_iff, Nat.eqb_neq. tauto. }
  unfold subscribeToAudioState, unsubscribe, notifyListeners. run.
  split; [|split; [|split]].
  - apply lastDelivered_notify, elem_of_app. right. by apply list_elem_of_singleton.
  - rewrite Hkept. tauto.
  - apply receivedBy_notify_other. rewrite Hkept. tauto.
  - intros l' Hne Hin. apply lastDelivered_notify. by apply Hkept.
Qed.

(** X17. [stopCurrentNarrative] leaves nothing playing and touches neither
    the stored configuration nor the listener list; when a narration was
    playing every listener receives [false] last, when none was playing
    nothing is delivered; a second call changes nothing. *)
Theorem stopCurrentNarrative_idempotent w :
  currentAudio (stopCurrentNarrative w).2 = None ∧
  api_config (stopCurrentNarrative w).2 = api_config w ∧
  audioListeners (stopCurrentNarrative w).2 = audioListeners w ∧
  (is_Some (currentAudio w) →
   ∀ l, l ∈ audioListeners w →
        lastDelivered l (delivered (stopCurrentNarrative w).2) = Some false) ∧
  (currentAudio w = None → stopCurrentNarrative w = (Normal tt, w)) ∧
  stopCurrentNarrative (stopCurrentNarrative w).2
  = (Normal tt, (stopCurrentNarrative w).2).
Proof.
  unfold stopCurrentNarrative, setCurrentAudio, notifyListeners. run.
  destruct (currentAudio w) as [a|] eqn:Haudio; simpl.
  - repeat split; try done.
    intros _ l Hl. by apply lastDelivered_notify.
  - rewrite Haudio. repeat split; done.
Qed.

Lemma playNarrative_budget env text fuel :
  ∀ rc w, (rc + fuel = 4)%nat →
    (requests (playNarrative env text rc w).2 ≤ requests w + fuel)%nat ∧
    (reads (playNarrative env text rc w).2 ≤ reads w + fuel)%nat ∧
    (writes (playNarrative env text rc w).2 + requests w
     ≤ writes w + requests (playNarrative env text rc w).2)%nat ∧
    audioListeners (playNarrative env text rc w).2 = audioListeners w ∧
    (elevenlabs_keys <$> api_config (playNarrative env text rc w).2)
    = (elevenlabs_keys <$> api_config w).
Proof.
  induction fuel as [|fuel IH]; intros rc w Hfuel.
  - rewrite playNarrative_over by lia. narration. repeat split; (lia || done).
  - unfold_playNarrative rc; [|lia].
    narration. branches;
      try match goal with
          | H : playNarrative env text (rc + 1) ?w2 = _ |- _ =>
              let Hnext := fresh "Hnext" in
              pose proof (IH (rc + 1)%nat w2 ltac:(lia)) as Hnext;
              rewrite H in Hnext; simpl in Hnext;
              destruct Hnext as (? & ? & ? & ? & ?)
          end;
      repeat split; (lia || done).
Qed.

(** X18. Whatever the provider and the store answer, one call of
    [playNarrative] completes normally, reads the configuration at most four
    times and sends at most four narration requests; it writes the rotation
    index at most once per request sent; and it changes neither the stored
    key list nor the list of listeners. *)
Theorem playNarrative_bounded env text w :
  (playNarrative env text 0 w).1 = Normal tt ∧
  (requests (playNarrative env text 0 w).2 ≤ requests w + 4)%nat ∧
  (reads (playNarrative env text 0 w).2 ≤ reads w + 4)%nat ∧
  (writes (playNarrative env text 0 w).2 - writes w
   ≤ requests (playNarrative env text 0 w).2 - requests w)%nat ∧
  audioListeners (playNarrative env text 0 w).2 = audioListeners w ∧
  (elevenlabs_keys <$> api_config (playNarrative env text 0 w).2)
  = (elevenlabs_keys <$> api_config w).
Proof.
  destruct (playNarrative_budget env text 4 0%nat w) as (Hreq & Hread & Hwrite & Hls & Hkeys);
    [lia|].
  split; [apply playNarrative_normal|].
  repeat split; (lia || done).
Qed.

Lemma speakable_checks text :
  trim text ≠ [] → trim (replaceDecor text) ≠ [] →
  (length text =? 0)%nat || (length (trim text) =? 0)%nat = false ∧
  (length (trim (replaceDecor text)) =? 0)%nat = false.
Proof.
  intros Ht Hc. split.
  - apply orb_false_iff. split.
    + destruct text; [done|reflexivity].
    + destruct (trim text); [done|reflexivity].
  - destruct (trim (replaceDecor text)); [done|reflexivity].
Qed.

(** X19. When no usable key can be resolved (the document is missing or
    unreadable, the key list is missing or empty, or the resolved slot is
    empty), [playNarrative] sends no request and writes nothing; nothing is
    left playing; and for a text with something to say every listener
    receives [false] last. *)
Theorem playNarrative_without_key env text rc w :
  (rc ≤ 3)%nat →
  resolvedKey env w = None ∨ resolvedKey env w = Some "" →
  requests (playNarrative env text rc w).2 = requests w ∧
  writes (playNarrative env text rc w).2 = writes w ∧
  api_config (playNarrative env text rc w).2 = api_config w ∧
  currentAudio (playNarrative env text rc w).2 = None ∧
  (trim text ≠ [] → trim (replaceDecor text) ≠ [] →
   ∀ l, l ∈ audioListeners w →
        lastDelivered l (delivered (playNarrative env text rc w).2) = Some false).
Proof.
  intros Hrc Hkey. unfold resolvedKey in Hkey.
  assert (∀ s : string, (s =? "") = false → Some s = None ∨ Some s = Some "" → False)
    as Hused.
  { intros s Hs [?|[= ->]]; done. }
  unfold_playNarrative rc; [|lia].
  repeat split.
  1-4: narration; branches; try done; exfalso; eauto.
  intros Ht Hc x Hx. destruct (speakable_checks text Ht Hc) as [Hck1 Hck2].
  narration.
  repeat first [ rewrite Hck1; simpl | rewrite Hck2; simpl | branch ];
    try (exfalso; by eauto); by apply lastDelivered_notify.
Qed.

Lemma playNarrative_without_key_witness :
  requests (playNarrative
              {| getDocOk := λ _, false; updateDocOk := λ _, true;
                 subscription := λ _ _, Throw "network";
                 textToSpeech := λ _ _ _, Throw "network" |}
              Samples.hello 0 (Samples.playing 0)).2 = 0%nat ∧
  lastDelivered 7%nat
    (delivered (playNarrative
                  {| getDocOk := λ _, false; updateDocOk := λ _, true;
                     subscription := λ _ _, Throw "network";
                     textToSpeech := λ _ _ _, Throw "network" |}
                  Samples.hello 0 (Samples.playing 0)).2) = Some false.
Proof.
  destruct (playNarrative_without_key
              {| getDocOk := λ _, false; updateDocOk := λ _, true;
                 subscription := λ _ _, Throw "network";
                 textToSpeech := λ _ _ _, Throw "network" |}
              Samples.hello 0 (Samples.playing 0)) as (Hreq & _ & _ & _ & Hquiet).
  - lia.
  - left. reflexivity.
  - split; [exact Hreq|].
    apply Hquiet; [discriminate|discriminate|].
    apply list_elem_of_In. simpl. tauto.
Defined.

(** X20. With something to say, a usable key and a 2xx answer whose body can
    be read, [playNarrative] sends exactly one request, carrying the resolved
    key and the cleaned text, and makes the answer the current audio; it
    writes nothing to the store and delivers nothing but the [false] of
    cancelling what was playing. *)
Theorem playNarrative_plays env text rc w apiKey r u :
  (rc ≤ 3)%nat →
  trim text ≠ [] → trim (replaceDecor text) ≠ [] →
  resolvedKey env w = Some apiKey → apiKey ≠ "" →
  textToSpeech env (requests w) apiKey (trim (replaceDecor text)) = Normal r →
  httpOk (speechStatus r) = true →
  audio r = Some u →
  (playNarrative env text rc w).1 = Normal tt ∧
  currentAudio (playNarrative env text rc w).2 = Some {| objectUrl := u |} ∧
  requests (playNarrative env text rc w).2 = S (requests w) ∧
  writes (playNarrative env text rc w).2 = writes w ∧
  api_config (playNarrative env text rc w).2 = api_config w ∧
  delivered (playNarrative env text rc w).2 =
    delivered w ++ match currentAudio w with
                   | Some _ => map (λ l, (l, false)) (audioListeners w)
                   | None => []
                   end.
Proof.
  intros Hrc Ht Hc Hkey Hne Hspeech Hok Haudio.
  destruct (speakable_checks text Ht Hc) as [Hck1 Hck2].
  apply String.eqb_neq in Hne.
  unfold resolvedKey in Hkey.
  unfold_playNarrative rc; [|lia].
  narration.
  repeat first
    [ rewrite Hck1; simpl | rewrite Hck2; simpl
    | match goal with H : Some _ = Some apiKey |- _ => injection H as -> end
    | rewrite Hne; simpl | rewrite Hspeech; simpl | rewrite Hok; simpl
    | rewrite Haudio; simpl | branch ];
    try done; by rewrite ?app_nil_r.
Qed.

Lemma playNarrative_plays_witness :
  currentAudio (playNarrative (Samples.provider 200) Samples.hello 0
                  (Samples.playing 1)).2 = Some {| objectUrl := 0 |} ∧
  requests (playNarrative (Samples.provider 200) Samples.hello 0
              (Samples.playing 1)).2 = 1%nat.
Proof.
  destruct (playNarrative_plays (Samples.provider 200) Samples.hello 0
              (Samples.playing 1) Samples.keyB
              {| speechStatus := 200; audio := Some 0%nat |} 0%nat)
    as (_ & Haudio & Hreq & _).
  - lia.
  - discriminate.
  - discriminate.
  - reflexivity.
  - discriminate.
  - reflexivity.
  - reflexivity.
  - reflexivity.
  - split; [exact Haudio|exact Hreq].
Defined.

(** X22. Rotation is cyclic: after [switchToNextKey(r)] has written the
    index for a valid position r of a list of n keys, the next resolution
    yields the key at position (r + 1) mod n. *)
Theorem rotation_is_cyclic env w cfg keys r :
  api_config w = Some cfg →
  elevenlabs_keys cfg = Some keys →
  (0 ≤ r < Z.of_nat (length keys))%Z →
  updateDocOk env (writes w) = true →
  getDocOk env (reads w) = true →
  (switchToNextKey env r w).1 = Normal tt ∧
  resolvedKey env (switchToNextKey env r w).2
  = keys !! Z.to_nat ((r + 1) `mod` Z.of_nat (length keys)) ∧
  is_Some (resolvedKey env (switchToNextKey env r w).2).
Proof.
  intros Hcfg Hkeys Hr Hwrite Hread.
  assert (resolvedKey env (switchToNextKey env r w).2
          = keys !! Z.to_nat ((r + 1) `mod` Z.of_nat (length keys))) as Hres.
  { unfold resolvedKey. narration. rewrite Hcfg, Hwrite. simpl.
    rewrite Hread. simpl. rewrite Hkeys. simpl.
    assert ((length keys =? 0)%nat = false) as -> by (apply Nat.eqb_neq; lia).
    simpl. unfold keyAt.
    destruct (Z.leb_spec (Z.of_nat (length keys)) (r + 1)) as [Hwrap|Hnext].
    - assert (r + 1 = Z.of_nat (length keys))%Z as Heq by lia.
      rewrite Heq, Z.mod_same by lia. done.
    - rewrite Z.mod_small by lia.
      destruct (Z.ltb_spec (r + 1) 0); [lia|done]. }
  split; [|split; [done|]].
  - narration. rewrite Hcfg, Hwrite. done.
  - rewrite Hres. apply lookup_lt_is_Some_2.
    pose proof (Z.mod_pos_bound (r + 1) (Z.of_nat (length keys))). lia.
Qed.

Lemma rotation_is_cyclic_witness :
  resolvedKey (Samples.provider 200)
    (switchToNextKey (Samples.provider 200) 2 (Samples.playing 2)).2
  = Some Samples.keyA.
Proof.
  destruct (rotation_is_cyclic (Samples.provider 200) (Samples.playing 2)
              {| elevenlabs_keys := Some [Samples.keyA; Samples.keyB; Samples.keyC];
                 elevenlabs_index := Some 2%Z |}
              [Samples.keyA; Samples.keyB; Samples.keyC] 2)
    as (_ & Hres & _).
  - reflexivity.
  - reflexivity.
  - simpl. lia.
  - reflexivity.
  - reflexivity.
  - exact Hres.
Defined.

(** X23. A narration request that throws (the network is down) is handled
    like a transient failure: the call completes normally, nothing is
    written to the store and nothing is retried, and once that request has
    been made every listener receives [false] last. *)
Theorem playNarrative_network_error env text rc w e :
  (rc ≤ 3)%nat →
  (∀ k t, textToSpeech env (requests w) k t = Throw e) →
  (playNarrative env text rc w).1 = Normal tt ∧
  api_config (playNarrative env text rc w).2 = api_config w ∧
  writes (playNarrative env text rc w).2 = writes w ∧
  (requests (playNarrative env text rc w).2 ≤ S (requests w))%nat ∧
  currentAudio (playNarrative env text rc w).2 = None ∧
  (requests (playNarrative env text rc w).2 = S (requests w) →
   ∀ x, x ∈ audioListeners w →
        lastDelivered x (delivered (playNarrative env text rc w).2) = Some false).
Proof.
  intros Hrc Hdown.
  split; [apply playNarrative_normal|].
  unfold_playNarrative rc; [|lia].
  narration.
  repeat first [ rewrite Hdown; simpl | branch ];
    repeat split; try done; try lia;
    try (intros Hreq; lia);
    try (intros _ x Hx; by apply lastDelivered_notify).
Qed.

Lemma playNarrative_network_error_witness :
  api_config (playNarrative
                {| getDocOk := λ _, true; updateDocOk := λ _, true;
                   subscription := λ _ _, Throw "network";
                   textToSpeech := λ _ _ _, Throw "network" |}
                Samples.hello 0 (Samples.playing 1)).2
  = api_config (Samples.playing 1) ∧
  lastDelivered 8%nat
    (delivered (playNarrative
                  {| getDocOk := λ _, true; updateDocOk := λ _, true;
                     subscription := λ _ _, Throw "network";
                     textToSpeech := λ _ _ _, Throw "network" |}
                  Samples.hello 0 (Samples.playing 1)).2) = Some false.
Proof.
  destruct (playNarrative_network_error
              {| getDocOk := λ _, true; updateDocOk := λ _, true;
                 subscription := λ _ _, Throw "network";
                 textToSpeech := λ _ _ _, Throw "network" |}
              Samples.hello 0 (Samples.playing 1) "network")
    as (_ & Hcfg & _ & _ & _ & Hquiet); [lia|reflexivity|].
  split; [exact Hcfg|].
  apply Hquiet; [by vm_compute|].
  apply list_elem_of_In. simpl. tauto.
Defined.

Lemma keyAt_usable keys j :
  (0 ≤ j < Z.of_nat (length keys))%Z → Forall (λ k, k ≠ "") keys →
  ∃ k, keyAt keys j = Some k ∧ String.eqb k "" = false.
Proof.
  intros Hj Hkeys. unfold keyAt.
  destruct (Z.ltb_spec j 0); [lia|].
  destruct (lookup_lt_is_Some_2 keys (Z.to_nat j)) as [k Hk]; [lia|].
  exists k. split; [done|]. apply String.eqb_neq.
  rewrite Forall_forall in Hkeys. apply Hkeys. by eapply list_elem_of_lookup_2.
Qed.

(** X21. One refused key, then success: when the first narration request is
    refused with 401, 402 or 429 and the second is answered 2xx, the call
    writes the index once, to one more than the position it resolved (the
    stored index, or 0 when none is stored or the stored one is not below the
    number of keys), sends exactly two requests, and ends with the second
    answer as the current audio. *)
Theorem playNarrative_rotates_once env text rc w keys idx r1 r2 u :
  (rc ≤ 2)%nat →
  trim text ≠ [] → trim (replaceDecor text) ≠ [] →
  api_config w = Some {| elevenlabs_keys := Some keys; elevenlabs_index := idx |} →
  keys ≠ [] →
  (0 ≤ default 0 idx)%Z →
  Forall (λ k, k ≠ "") keys →
  getDocOk env (reads w) = true →
  getDocOk env (S (reads w)) = true →
  updateDocOk env (writes w) = true →
  (∀ k t, textToSpeech env (requests w) k t = Normal r1) →
  isRotationStatus (speechStatus r1) = true →
  (∀ k t, textToSpeech env (S (requests w)) k t = Normal r2) →
  httpOk (speechStatus r2) = true →
  audio r2 = Some u →
  (playNarrative env text rc w).1 = Normal tt ∧
  api_config (playNarrative env text rc w).2
  = Some {| elevenlabs_keys := Some keys;
            elevenlabs_index :=
              Some ((if (Z.of_nat (length keys) <=? default 0 idx)%Z
                     then 0 else default 0 idx) + 1)%Z |} ∧
  writes (playNarrative env text rc w).2 = S (writes w) ∧
  requests (playNarrative env text rc w).2 = S (S (requests w)) ∧
  currentAudio (playNarrative env text rc w).2 = Some {| objectUrl := u |}.
Proof.
  intros Hrc Ht Hc Hcfg Hne Hi Hkeys Hread1 Hread2 Hwrite Hfirst Hrot Hsecond Hok Haudio.
  destruct (speakable_checks text Ht Hc) as [Hck1 Hck2].
  assert ((length keys =? 0)%nat = false) as Hlen
    by (apply Nat.eqb_neq; by destruct keys).
  assert (0 < Z.of_nat (length keys))%Z as Hpos by (destruct keys; [done|simpl; lia]).
  remember (default 0%Z idx) as stored eqn:Hstored.
  remember (if (Z.of_nat (length keys) <=? stored)%Z then 0%Z else stored) as i eqn:Hresolved.
  assert (0 ≤ i < Z.of_nat (length keys))%Z as Hin.
  { subst i. destruct (Z.leb_spec (Z.of_nat (length keys)) stored); lia. }
  destruct (keyAt_usable keys i Hin Hkeys) as (k1 & Hk1 & Hk1ne).
  set (j := if (Z.of_nat (length keys) <=? i + 1)%Z then 0%Z else (i + 1)%Z).
  assert (0 ≤ j < Z.of_nat (length keys))%Z as Hj.
  { subst j. destruct (Z.leb_spec (Z.of_nat (length keys)) (i + 1)); lia. }
  destruct (keyAt_usable keys j Hj Hkeys) as (k2 & Hk2 & Hk2ne).
  split; [apply playNarrative_normal|].
  unfold_playNarrative rc; [|lia].
  rewrite (playNarrative_equation_1 _ _ (rc + 1)).
  destruct (le_lt_dec (rc + 1) 3); [|lia].
  rewrite playNarrative_clause_1_equation_1.
  narration.
  rewrite Hck1, Hck2.
  destruct (currentAudio w) eqn:Hplaying; simpl;
    rewrite Hread1; simpl; rewrite Hcfg; simpl; rewrite Hlen; simpl;
    rewrite <- Hstored, <- Hresolved;
    rewrite Hk1; simpl; rewrite Hk1ne; simpl; rewrite Hfirst; simpl;
    rewrite (rotation_not_ok _ Hrot), Hrot; simpl;
    rewrite Hwrite; simpl; rewrite ?Hplaying; simpl;
    rewrite ?Hck1; simpl; rewrite ?Hck2; simpl;
    rewrite Hread2; simpl; rewrite Hlen; simpl;
    fold j; rewrite Hk2; simpl; rewrite Hk2ne; simpl; rewrite Hsecond; simpl;
    rewrite Hok; simpl; rewrite Haudio; simpl; done.
Qed.

Lemma playNarrative_rotates_once_witness :
  api_config (playNarrative
                {| getDocOk := λ _, true; updateDocOk := λ _, true;
                   subscription := λ _ _, Throw "network";
                   textToSpeech := λ n _ _,
                     match n with
                     | 0 => Normal {| speechStatus := 429; audio := None |}
                     | _ => Normal {| speechStatus := 200; audio := Some 5%nat |}
                     end |}
                Samples.hello 0 (Samples.playing 3)).2
  = Some {| elevenlabs_keys := Some [Samples.keyA; Samples.keyB; Samples.keyC];
            elevenlabs_index := Some 1%Z |}.
Proof.
  destruct (playNarrative_rotates_once
              {| getDocOk := λ _, true; updateDocOk := λ _, true;
                 subscription := λ _ _, Throw "network";
                 textToSpeech := λ n _ _,
                   match n with
                   | 0 => Normal {| speechStatus := 429; audio := None |}
                   | _ => Normal {| speechStatus := 200; audio := Some 5%nat |}
                   end |}
              Samples.hello 0 (Samples.playing 3)
              [Samples.keyA; Samples.keyB; Samples.keyC] (Some 3%Z)
              {| speechStatus := 429; audio := None |}
              {| speechStatus := 200; audio := Some 5%nat |} 5%nat)
    as (_ & Hcfg & _).
  - lia.
  - discriminate.
  - discriminate.
  - reflexivity.
  - discriminate.
  - simpl. lia.
  - repeat constructor; discriminate.
  - reflexivity.
  - reflexivity.
  - reflexivity.
  - reflexivity.
  - reflexivity.
  - reflexivity.
  - reflexivity.
  - reflexivity.
  - exact Hcfg.
Defined.

(** *** The text that is sent *)

Lemma replaceDecor_cons c rest :
  replaceDecor (c :: rest) =
  if decorUnit c then replaceDecor rest else
  match rest with
  | d :: rest' => if decorPair c d then replaceDecor rest' else c :: replaceDecor rest
  | [] => [c]
  end.
Proof. reflexivity. Qed.

Lemma replaceDecor_units_upto n :
  ∀ t, (length t ≤ n)%nat → Forall (λ c, decorUnit c = false) (replaceDecor t).
Proof.
  induction n as [|n IH]; intros t Hlen.
  - destruct t; [constructor|simpl in Hlen; lia].
  - destruct t as [|c rest]; [constructor|]. simpl in Hlen.
    rewrite replaceDecor_cons. destruct (decorUnit c) eqn:Hc.
    + apply IH. lia.
    + destruct rest as [|d rest']; [by repeat constructor|].
      destruct (decorPair c d).
      * apply IH. simpl in Hlen. lia.
      * constructor; [done|]. apply IH. lia.
Qed.

Lemma trimStart_head t c : head (trimStart t) = Some c → isWhiteSpace c = false.
Proof.
  induction t as [|x t IH]; simpl; [done|].
  destruct (isWhiteSpace x) eqn:Hx; [done|]. simpl. by intros [= <-].
Qed.

Lemma trimStart_suffix t : trimStart t `suffix_of` t.
Proof.
  induction t as [|x t IH]; simpl; [done|].
  destruct (isWhiteSpace x); [by apply suffix_cons_r|done].
Qed.

Lemma trimStart_fixed t :
  (∀ c, head t = Some c → isWhiteSpace c = false) → trimStart t = t.
Proof. destruct t as [|x t]; simpl; [done|]. intros Hx. by rewrite (Hx x). Qed.

Lemma head_rev_last (t : Text) : head (rev t) = last t.
Proof.
  induction t as [|x t _] using rev_ind; [done|].
  by rewrite rev_app_distr, last_snoc.
Qed.

Lemma last_rev_head (t : Text) : last (rev t) = head t.
Proof. destruct t as [|x t]; [done|]. simpl. by rewrite last_snoc. Qed.

Lemma suffix_last (s t : Text) c : s `suffix_of` t → last s = Some c → last t = Some c.
Proof. intros [k ->] Hs. by rewrite last_app, Hs. Qed.

Lemma trim_head t c : head (trim t) = Some c → isWhiteSpace c = false.
Proof.
  unfold trim. rewrite head_rev_last. intros Hlast.
  apply (suffix_last _ _ _ (trimStart_suffix _)) in Hlast.
  rewrite last_rev_head in Hlast. by eapply trimStart_head.
Qed.

Lemma trim_last t c : last (trim t) = Some c → isWhiteSpace c = false.
Proof. unfold trim. rewrite last_rev_head. apply trimStart_head. Qed.

(** X24. The text [playNarrative] sends, [trim] of the stripped input, holds
    no code unit of the three one-unit symbol ranges and neither starts nor
    ends with white space; cleaning it again gives the same text. *)
Theorem cleanText_form text :
  Forall (λ c, decorUnit c = false) (trim (replaceDecor text)) ∧
  (∀ c, head (trim (replaceDecor text)) = Some c → isWhiteSpace c = false) ∧
  (∀ c, last (trim (replaceDecor text)) = Some c → isWhiteSpace c = false) ∧
  trim (trim (replaceDecor text)) = trim (replaceDecor text).
Proof.
  assert (∀ (P : N → Prop) t, Forall P t → Forall P (trimStart t)) as Hkeep.
  { intros P t Ht. destruct (trimStart_suffix t) as [k Hk].
    rewrite Hk in Ht. by apply Forall_app in Ht as [_ Ht]. }
  split; [|split; [apply trim_head|split; [apply trim_last|]]].
  - unfold trim. apply Forall_rev, Hkeep, Forall_rev, Hkeep.
    by apply (replaceDecor_units_upto (length text)).
  - generalize (replaceDecor text). intros t.
    pose proof (trim_head t) as Hhead. unfold trim in *.
    set (u := trimStart (rev (trimStart t))) in *.
    rewrite (trimStart_fixed (rev u)) by done.
    rewrite rev_involutive.
    rewrite (trimStart_fixed u); [done|].
    subst u. apply trimStart_head.
Qed.

(** Stripping is a single pass: symbols that become adjacent only after a
    removal are left in place. *)
Example replaceDecor_single_pass :
  replaceDecor [0xD83D; 0x2764; 0xDE00]%N = [0xD83D; 0xDE00]%N ∧
  replaceDecor [0xD83D; 0xDE00]%N = [].
Proof. by vm_compute. Qed.

End KeyPoolMore.
